(** * forkontext: the caching fetch policy, the proxy URL rewriter and the
    request handler of [forkontext.py], embedded as executable definitions,
    with the properties its specification states about them. *)

From Stdlib Require Import ZArith Ascii String List Lia.
From stdpp Require Import base option list strings gmap.

Local Open Scope string_scope.
Local Open Scope Z_scope.
Local Open Scope list_scope.

(** ** Data model *)

(** A captured HTTP response, as much of [requests.Response] as the program
    reads: [status_code], [headers], [text] and [content]. *)
Record Response := mkResponse {
  status_code : Z;
  headers : list (string * string);
  text : string;
  content : string
}.

(** [resp.status_code // 100 != 2] (floor division, as [Z.div]). *)
Definition not_2xx (resp : Response) : bool :=
  negb (status_code resp / 100 =? 2).

(** Truth value of a response object: [requests.Response.__bool__] is
    [self.ok], which is false exactly for the 4xx and 5xx codes. *)
Definition Response_bool (resp : Response) : bool :=
  negb ((400 <=? status_code resp) && (status_code resp <? 600)).

(** Timestamps are [datetime] values counted in microseconds;
    [timedelta_hours h] is [datetime.timedelta(hours=h)]. *)
Definition datetime := Z.
Definition timedelta_hours (h : Z) : Z := h * 3600 * 1000000.

(** One row of table [entry] (class [Entry]); a column holding NULL, or an
    attribute of a new object not yet assigned, is [None]. *)
Record Entry := mkEntry {
  entry_id : option Z;
  entry_url : string;
  entry_expiry : option datetime;
  entry_response : option Response
}.

(** [Entry(url=url)] *)
Definition new_Entry (url : string) : Entry :=
  {| entry_id := None; entry_url := url;
     entry_expiry := None; entry_response := None |}.

Definition set_response (resp : Response) (c : Entry) : Entry :=
  {| entry_id := entry_id c; entry_url := entry_url c;
     entry_expiry := entry_expiry c; entry_response := Some resp |}.

Definition set_expiry (t : datetime) (c : Entry) : Entry :=
  {| entry_id := entry_id c; entry_url := entry_url c;
     entry_expiry := Some t; entry_response := entry_response c |}.

Definition set_id (k : Z) (c : Entry) : Entry :=
  {| entry_id := Some k; entry_url := entry_url c;
     entry_expiry := entry_expiry c; entry_response := entry_response c |}.

(** ** Exceptions and the world the program runs in *)

Inductive exn : Type :=
| TypeError          (* ordering a datetime against None *)
| AttributeError     (* attribute access on None *)
| SQLAlchemyError    (* a fault of the store *)
| Timeout            (* requests.exceptions.Timeout *)
| ConnectionError    (* requests.exceptions.ConnectionError *)
| MemoryError.       (* resource exhaustion *)

(** How the session holds the object that [cached] refers to: added and
    waiting for its INSERT, or loaded from row number [row] of the table,
    [dirty] once an attribute has been assigned. *)
Inductive ObjState : Type :=
| Pending
| Persistent (row : nat) (dirty : bool).

(** What a call does to the store session and the rows it writes. *)
Inductive SessionEvent : Type :=
| EvOpen
| EvQuery (url : string)
| EvAdd
| EvCommit
| EvInsert (row : Entry)
| EvUpdate (i : nat) (row : Entry)
| EvRollback
| EvClose.

(** The state a call runs against: the committed rows of table [entry], in
    table order; the object of the open session, shared between the variable
    [cached] and the session (assignments to [cached]'s attributes are seen
    by the later [commit]); the URLs handed to [req_session.get]; and the
    trace of session operations. *)
Record World := mkWorld {
  table : list Entry;
  tracked : option (ObjState * Entry);
  http_log : list string;
  session_log : list SessionEvent
}.

(** What the outside does during one call: the clock, and for each of the
    three operations that leave the process whether it raises. *)
Record Env := mkEnv {
  utcnow : datetime;
  query_raises : option exn;
  http_get : string → exn + Response;
  commit_raises : option exn
}.

(** ** The monad the program is written in: state and exceptions *)

Definition M (A : Type) : Type := World → (exn + A) * World.

Definition ret {A} (a : A) : M A := λ w, (inr a, w).

Definition bind {A B} (m : M A) (f : A → M B) : M B := λ w,
  match m w with
  | (inl e, w') => (inl e, w')
  | (inr a, w') => f a w'
  end.

Declare Scope M_scope.
Delimit Scope M_scope with M.
Bind Scope M_scope with M.
Notation "x <- c1 ;; c2" := (bind c1 (λ x, c2))
  (at level 100, c1 at next level, right associativity, only parsing) : M_scope.
Notation "c1 ;; c2" := (bind c1 (λ _, c2))
  (at level 100, c2 at level 200, right associativity, only parsing) : M_scope.
Local Open Scope M_scope.

Definition raise {A} (e : exn) : M A := λ w, (inl e, w).

(** [try: body / except: handler / finally: final]. The handler receives
    the exception caught; the [finally] block runs on every path and its own
    exception, if any, replaces the outcome. *)
Definition try_except_finally {A}
    (body : M A) (handler : exn → M A) (final : M unit) : M A := λ w,
  let '(r1, w1) := body w in
  let '(r2, w2) := match r1 with
                   | inl e => handler e w1
                   | inr a => (inr a, w1)
                   end in
  let '(r3, w3) := final w2 in
  match r3 with
  | inl e => (inl e, w3)
  | inr _ => (r2, w3)
  end.

Definition log_event (ev : SessionEvent) : M unit := λ w,
  (inr (), {| table := table w; tracked := tracked w;
              http_log := http_log w;
              session_log := session_log w ++ [ev] |}).

Definition set_tracked (o : option (ObjState * Entry)) : M unit := λ w,
  (inr (), {| table := table w; tracked := o;
              http_log := http_log w; session_log := session_log w |}).

Definition set_table (t : list Entry) : M unit := λ w,
  (inr (), {| table := t; tracked := tracked w;
              http_log := http_log w; session_log := session_log w |}).

Definition get_world : M World := λ w, (inr w, w).

(** ** The store session *)

(** First row, in table order, whose [url] column equals [url], with its
    position: [query(Entry).filter_by(url=url).first()]. *)
Fixpoint first_by_url (url : string) (rows : list Entry) (i : nat)
    : option (nat * Entry) :=
  match rows with
  | [] => None
  | c :: rows' =>
      if String.eqb (entry_url c) url then Some (i, c)
      else first_by_url url rows' (S i)
  end.

(** The key the table gives an inserted row: one above the largest key
    present. *)
Definition next_id (rows : list Entry) : Z :=
  1 + fold_right (λ c acc, Z.max (default 0 (entry_id c)) acc) 0 rows.

(** [Session()] *)
Definition Session : M unit :=
  set_tracked None ;; log_event EvOpen.

(** [session.query(Entry).filter_by(url=url).first()]: the object found
    becomes the session's, clean. *)
Definition session_query_first (env : Env) (url : string) : M (option Entry) :=
  log_event (EvQuery url) ;;
  match query_raises env with
  | Some e => raise e
  | None =>
      w <- get_world ;;
      match first_by_url url (table w) 0 with
      | None => ret None
      | Some (i, c) => set_tracked (Some (Persistent i false, c)) ;; ret (Some c)
      end
  end.

(** [session.add(cached)] *)
Definition session_add (c : Entry) : M unit :=
  log_event EvAdd ;; set_tracked (Some (Pending, c)).

(** An attribute assignment [cached.<attr> = v], [f] being the update. *)
Definition assign (f : Entry → Entry) : M unit :=
  w <- get_world ;;
  match tracked w with
  | Some (Pending, c) => set_tracked (Some (Pending, f c))
  | Some (Persistent i _, c) => set_tracked (Some (Persistent i true, f c))
  | None => raise AttributeError
  end.

(** Reading the object [cached] refers to. *)
Definition read_cached : M Entry :=
  w <- get_world ;;
  match tracked w with
  | Some (_, c) => ret c
  | None => raise AttributeError
  end.

(** [session.commit()]: the pending INSERT or UPDATE reaches the table, or
    the commit raises and nothing does. *)
Definition session_commit (env : Env) : M unit :=
  log_event EvCommit ;;
  match commit_raises env with
  | Some e => raise e
  | None =>
      w <- get_world ;;
      match tracked w with
      | Some (Pending, c) =>
          let row := set_id (next_id (table w)) c in
          log_event (EvInsert row) ;;
          set_table (table w ++ [row]) ;;
          set_tracked (Some (Persistent (length (table w)) false, row))
      | Some (Persistent i true, c) =>
          log_event (EvUpdate i c) ;;
          set_table (<[i := c]> (table w)) ;;
          set_tracked (Some (Persistent i false, c))
      | Some (Persistent i false, c) => ret ()
      | None => ret ()
      end
  end.

(** [session.rollback()]: what the session held is dropped; the table keeps
    its committed rows. *)
Definition session_rollback : M unit :=
  log_event EvRollback ;; set_tracked None.

(** [session.close()] *)
Definition session_close : M unit :=
  log_event EvClose ;; set_tracked None.

(** ** The transport *)

(** [req_session.get(url)] *)
Definition req_session_get (env : Env) (url : string) : M Response := λ w,
  let w' := {| table := table w; tracked := tracked w;
               http_log := http_log w ++ [url];
               session_log := session_log w |} in
  match http_get env url with
  | inl e => (inl e, w')
  | inr resp => (inr resp, w')
  end.

(** ** [fetch] *)

(** [now >= cached.expiry]; an expiry of None raises. *)
Definition datetime_ge (now : datetime) (expiry : option datetime) : M bool :=
  match expiry with
  | Some t => ret (t <=? now)
  | None => raise TypeError
  end.

(** [not cached or now >= cached.expiry], the right operand evaluated only
    when the left is false. *)
Definition needs_fetch (now : datetime) (cached : option Entry) : M bool :=
  match cached with
  | None => ret true
  | Some c => datetime_ge now (entry_expiry c)
  end.

(** [not cached.response or cached.response.status_code // 100 != 2] *)
Definition may_overwrite (c : Entry) : bool :=
  match entry_response c with
  | None => true
  | Some old => negb (Response_bool old) || not_2xx old
  end.

Definition fetch (env : Env) (url : string) : M (option Response) :=
  try_except_finally
    (Session ;;
     let now := utcnow env in
     cached <- session_query_first env url ;;
     stale <- needs_fetch now cached ;;
     (if stale then
        (match cached with
         | None => session_add (new_Entry url)
         | Some _ => ret ()
         end) ;;
        resp <- req_session_get env url ;;
        if not_2xx resp then
          c <- read_cached ;;
          (if may_overwrite c then assign (set_response resp) else ret ()) ;;
          assign (set_expiry (now + timedelta_hours 1))
        else
          assign (set_response resp) ;;
          assign (set_expiry (now + timedelta_hours 12))
      else ret ()) ;;
     session_commit env ;;
     c <- read_cached ;;
     ret (entry_response c))
    (λ e, session_rollback ;; raise e)
    session_close.

(** ** Regular expressions, as far as [TWITTER_RE] needs them *)

(** A pattern is matched the way [re] does it: alternatives in order, [?]
    and [+] greedy, backtracking into the earlier choice when the rest of
    the pattern fails. *)
Inductive regex : Type :=
| Lit (s : string)                (* a run of literal characters *)
| Plus (cls : ascii → bool)       (* one or more characters of a class *)
| Seq (r1 r2 : regex)
| Alt (r1 r2 : regex)
| Opt (r : regex)
| Group (n : nat) (r : regex).    (* capturing group number [n] *)

Fixpoint strip_prefix (p s : string) : option string :=
  match p, s with
  | EmptyString, _ => Some s
  | String a p', String b s' =>
      if Ascii.eqb a b then strip_prefix p' s' else None
  | String _ _, EmptyString => None
  end.

(** What was consumed between [s] and its suffix [rest]. *)
Definition consumed (s rest : string) : string :=
  substring 0 (String.length s - String.length rest) s.

Definition captures := list (nat * string).

Definition group (n : nat) (caps : captures) : option string :=
  snd <$> List.find (λ p, Nat.eqb (fst p) n) caps.

Fixpoint plus_k {R} (cls : ascii → bool) (s : string)
    (k : string → option R) : option R :=
  match s with
  | EmptyString => None
  | String c s' =>
      if cls c then
        match plus_k cls s' k with
        | Some r => Some r
        | None => k s'
        end
      else None
  end.

Fixpoint match_k (r : regex) (s : string) (caps : captures)
    (k : string → captures → option captures) : option captures :=
  match r with
  | Lit p =>
      match strip_prefix p s with
      | Some rest => k rest caps
      | None => None
      end
  | Plus cls => plus_k cls s (λ rest, k rest caps)
  | Seq r1 r2 => match_k r1 s caps (λ rest caps', match_k r2 rest caps' k)
  | Alt r1 r2 =>
      match match_k r1 s caps k with
      | Some res => Some res
      | None => match_k r2 s caps k
      end
  | Opt r1 =>
      match match_k r1 s caps k with
      | Some res => Some res
      | None => k s caps
      end
  | Group n r1 =>
      match_k r1 s caps (λ rest caps', k rest ((n, consumed s rest) :: caps'))
  end.

(** [pattern.match(s)]: anchored at the start of [s], free at its end. *)
Definition re_match (r : regex) (s : string) : option captures :=
  match_k r s [] (λ _ caps, Some caps).

(** ** JSON values and the responses the handler builds *)

#[warnings="-register-all"]
Inductive json : Type :=
| JNull
| JBool (b : bool)
| JNum (z : Z)
| JStr (s : string)
| JArr (l : list json)
| JObj (l : list (string * json)).

(** Truth value of a Python value of these shapes. *)
Definition json_bool (j : json) : bool :=
  match j with
  | JNull => false
  | JBool b => b
  | JNum z => negb (z =? 0)
  | JStr s => negb (String.eqb s "")
  | JArr l => match l with [] => false | _ => true end
  | JObj l => match l with [] => false | _ => true end
  end.

Inductive body : Type :=
| BodyJson (j : json)      (* a body made by [jsonify] *)
| BodyText (s : string).

Record FlaskResponse := mkFlaskResponse {
  fr_status : Z;
  fr_content_type : string;
  fr_body : body
}.

Definition jsonify (j : json) : FlaskResponse :=
  {| fr_status := 200; fr_content_type := "application/json";
     fr_body := BodyJson j |}.

(** [make_response(rv, status)] *)
Definition make_response_status (rv : FlaskResponse) (status : Z)
    : FlaskResponse :=
  {| fr_status := status; fr_content_type := fr_content_type rv;
     fr_body := fr_body rv |}.

(** [make_response(text)] *)
Definition make_response_text (s : string) : FlaskResponse :=
  {| fr_status := 200; fr_content_type := "text/html; charset=utf-8";
     fr_body := BodyText s |}.

Definition set_content_type (ct : string) (rv : FlaskResponse)
    : FlaskResponse :=
  {| fr_status := fr_status rv; fr_content_type := ct;
     fr_body := fr_body rv |}.

(** [request.args.get(key)]: the first value given for [key], or None. *)
Fixpoint args_get (key : string) (args : list (string * string))
    : option string :=
  match args with
  | [] => None
  | (k, v) :: args' => if String.eqb k key then Some v else args_get key args'
  end.

(** Truth value of what [args.get] gives: None and the empty string are
    false. *)
Definition arg_bool (v : option string) : bool :=
  match v with
  | None => false
  | Some s => negb (String.eqb s "")
  end.

Definition lower_ascii (c : ascii) : ascii :=
  let n := nat_of_ascii c in
  if (Nat.leb 65 n && Nat.leb n 90)%bool then ascii_of_nat (n + 32) else c.

Fixpoint lower (s : string) : string :=
  match s with
  | EmptyString => EmptyString
  | String c s' => String (lower_ascii c) (lower s')
  end.

(** [name in resp.headers], the header names compared without case. *)
Definition has_header (name : string) (hs : list (string * string)) : bool :=
  existsb (λ h, String.eqb (lower (fst h)) (lower name)) hs.

Fixpoint join (sep : string) (l : list string) : string :=
  match l with
  | [] => ""
  | [x] => x
  | x :: l' => x +:+ sep +:+ join sep l'
  end.

(** ** [maybe_proxy] and [fetch_context] *)

Section Handler.

(** What the libraries decide: the character class [\w], percent-encoding
    ([urllib.parse.quote_plus]), the microformats parser and its
    interpreter, and the JSON printer. *)
Variable is_word : ascii → bool.
Variable quote_plus : string → string.
Variable mf2py_parse : string → string → json.
Variable mf2util_interpret : json → string → json.
Variable json_dumps : json → string.

(** [https?://(?:www\.|mobile\.)?twitter\.com/(\w+)/status(?:es)?/(\w+)] *)
Definition TWITTER_RE : regex :=
  Seq (Lit "http") (Seq (Opt (Lit "s")) (Seq (Lit "://")
  (Seq (Opt (Alt (Lit "www.") (Lit "mobile.")))
  (Seq (Lit "twitter.com/")
  (Seq (Group 1 (Plus is_word))
  (Seq (Lit "/status") (Seq (Opt (Lit "es")) (Seq (Lit "/")
  (Group 2 (Plus is_word)))))))))).

(** [urllib.parse.urlencode(pairs)] *)
Definition urlencode (pairs : list (string * string)) : string :=
  join "&" (map (λ p, quote_plus (fst p) +:+ "=" +:+ quote_plus (snd p)) pairs).

Definition maybe_proxy (config : gmap string string) (url : string)
    : string :=
  match config !! "TWITTER_AU_KEY", config !! "TWITTER_AU_SECRET" with
  | Some key, Some secret =>
      match re_match TWITTER_RE url with
      | Some m =>
          "https://twitter-activitystreams.appspot.com/@me/@all/@app/"
          +:+ default "" (group 2 m) +:+ "?"
          +:+ urlencode [("format", "html");
                         ("access_token_key", key);
                         ("access_token_secret", secret)]
      | None => url
      end
  | _, _ => url
  end.

Definition missing_url_response : FlaskResponse :=
  make_response_status
    (jsonify (JObj [("error", JStr "missing_url");
                    ("message", JStr "Missing 'url' query parameter")]))
    400.

Definition fetch_context (config : gmap string string) (env : Env)
    (args : list (string * string)) : M FlaskResponse :=
  let url := args_get "url" args in
  if negb (arg_bool url) then ret missing_url_response
  else
    let url := maybe_proxy config (default "" url) in
    r <- fetch env url ;;
    match r with
    | None => raise AttributeError
    | Some resp =>
        if not_2xx resp then
          ret (make_response_status
                 (jsonify (JObj [("error", JStr "fetch_failed");
                                 ("message",
                                  JStr ("Failed to fetch resource at " +:+ url));
                                 ("response", JStr (text resp));
                                 ("code", JNum (status_code resp))]))
                 (status_code resp))
        else
          let parsed :=
            mf2py_parse (if has_header "content-type" (headers resp)
                         then text resp else content resp) url in
          let entry := mf2util_interpret parsed url in
          let blob := JObj (if json_bool entry then [("data", entry)] else []) in
          let cb := args_get "callback" args in
          if arg_bool cb then
            ret (set_content_type "application/javascript; charset=utf-8"
                   (make_response_text
                      (default "" cb +:+ "(" +:+ json_dumps blob +:+ ")")))
          else ret (jsonify blob)
    end.

End Handler.

(** ** [fetch], path by path *)

(** The entry as lines 85 to 94 leave it, given the live response. *)
Definition refreshed (now : datetime) (resp : Response) (c : Entry) : Entry :=
  if not_2xx resp then
    set_expiry (now + timedelta_hours 1)
      (if may_overwrite c then set_response resp c else c)
  else set_expiry (now + timedelta_hours 12) (set_response resp c).

(** The world a call leaves: session closed, [evs] appended to the trace. *)
Definition finish (w : World) (rows : list Entry) (gets : list string)
    (evs : list SessionEvent) : World :=
  {| table := rows; tracked := None; http_log := gets;
     session_log := session_log w ++ evs |}.

(** The outcome of the live path, [found] being what the query gave. *)
Definition live_result (env : Env) (url : string) (w : World)
    (found : option (nat * Entry)) : (exn + option Response) * World :=
  let now := utcnow env in
  let evs := ([EvOpen; EvQuery url]
              ++ match found with None => [EvAdd] | Some _ => [] end)%list in
  let gets := (http_log w ++ [url])%list in
  match http_get env url with
  | inl e => (inl e, finish w (table w) gets (evs ++ [EvRollback; EvClose]))
  | inr resp =>
      match commit_raises env with
      | Some e =>
          (inl e, finish w (table w) gets
                    (evs ++ [EvCommit; EvRollback; EvClose]))
      | None =>
          match found with
          | None =>
              let row := set_id (next_id (table w))
                           (refreshed now resp (new_Entry url)) in
              (inr (entry_response row),
               finish w (table w ++ [row]) gets
                 (evs ++ [EvCommit; EvInsert row; EvClose]))
          | Some (i, c) =>
              let row := refreshed now resp c in
              (inr (entry_response row),
               finish w (<[i := row]> (table w)) gets
                 (evs ++ [EvCommit; EvUpdate i row; EvClose]))
          end
      end
  end.

Definition fetch_result (env : Env) (url : string) (w : World)
    : (exn + option Response) * World :=
  let aborted evs := finish w (table w) (http_log w) evs in
  match query_raises env with
  | Some e => (inl e, aborted [EvOpen; EvQuery url; EvRollback; EvClose])
  | None =>
      match first_by_url url (table w) 0 with
      | None => live_result env url w None
      | Some (i, c) =>
          match entry_expiry c with
          | None =>
              (inl TypeError,
               aborted [EvOpen; EvQuery url; EvRollback; EvClose])
          | Some t =>
              if t <=? utcnow env then live_result env url w (Some (i, c))
              else
                match commit_raises env with
                | Some e =>
                    (inl e, aborted [EvOpen; EvQuery url; EvCommit;
                                     EvRollback; EvClose])
                | None =>
                    (inr (entry_response c),
                     aborted [EvOpen; EvQuery url; EvCommit; EvClose])
                end
          end
      end
  end.

(** ** Concrete inputs *)

Definition resp_200 : Response := mkResponse 200 [] "ok" "ok".
Definition resp_503 : Response := mkResponse 503 [] "down" "down".
Definition url_x : string := "http://x.example/post".

Definition world_empty : World := mkWorld [] None [] [].

(** One row for [url_x]: a good response, expired at time 100. *)
Definition row_good : Entry :=
  mkEntry (Some 1) url_x (Some 100) (Some resp_200).
Definition world_good : World := mkWorld [row_good] None [] [].

(** The clock reads 1000; nothing faults; the server answers as named. *)
Definition env_ok : Env := mkEnv 1000 None (λ _, inr resp_200) None.
Definition env_503 : Env := mkEnv 1000 None (λ _, inr resp_503) None.
Definition env_timeout : Env := mkEnv 1000 None (λ _, inl Timeout) None.
Definition env_query_fault : Env :=
  mkEnv 1000 (Some SQLAlchemyError) (λ _, inr resp_200) None.
(** One minute after [env_ok]; a GET, were one made, would time out. *)
Definition env_minute_later : Env :=
  mkEnv (1000 + 60 * 1000000) None (λ _, inl Timeout) None.
(** The clock reads 50, before [row_good] expires. *)
Definition env_early : Env := mkEnv 50 None (λ _, inr resp_503) None.

(** The ASCII part of [\w], [quote_plus] on strings it leaves alone, and a
    parser that finds nothing. *)
Definition ascii_word (c : ascii) : bool :=
  let n := nat_of_ascii c in
  ((Nat.leb 48 n && Nat.leb n 57) || (Nat.leb 65 n && Nat.leb n 90)
   || (Nat.leb 97 n && Nat.leb n 122) || Nat.eqb n 95)%bool.
Definition quote_plain (s : string) : string := s.
Definition parse_nothing (doc url : string) : json := JObj [].
Definition interpret_nothing (parsed : json) (url : string) : json := JNull.
Definition dumps_nothing (j : json) : string := "{}".

Definition config_none : gmap string string := ∅.
Definition config_both : gmap string string :=
  <["TWITTER_AU_KEY" := "k"]> (<["TWITTER_AU_SECRET" := "s"]> ∅).
Definition url_tweet : string := "https://twitter.com/kylewm/status/12345".

(** ** Well-formed rows *)

(** A row as a committed call leaves it: expiry and response both set. *)
Definition row_complete (c : Entry) : Prop :=
  is_Some (entry_expiry c) ∧ is_Some (entry_response c).

(** What the query gives makes the call go to the network: no row, or a
    row whose expiry has passed. *)
Definition goes_live (now : datetime) (found : option (nat * Entry)) : Prop :=
  match found with
  | None => True
  | Some (_, c) => ∃ t, entry_expiry c = Some t ∧ t ≤ now
  end.

(** A row whose expiry column holds NULL. *)
Definition row_null_expiry : Entry :=
  mkEntry (Some 1) url_x None (Some resp_200).
Definition world_null_expiry : World := mkWorld [row_null_expiry] None [] [].

(** Every character of [s] is in the class. *)
Fixpoint string_forall (cls : ascii → bool) (s : string) : bool :=
  match s with
  | EmptyString => true
  | String c s' => cls c && string_forall cls s'
  end.

(** [s] is empty or begins with a character outside the class. *)
Definition stops (cls : ascii → bool) (s : string) : bool :=
  match s with
  | EmptyString => true
  | String c _ => negb (cls c)
  end.

(** ** [to_html] *)

(** An entry as [mf2util.interpret] gives it, with the keys [to_html]
    reads: [author] is a dict of strings, the others are strings; [e_other]
    says whether the dict has any further key. *)
Record mf2entry := mkMf2entry {
  e_author : option (gmap string string);
  e_name : option string;
  e_content : option string;
  e_url : option string;
  e_published : option string;
  e_other : bool
}.

(** [key in entry], given what the dict holds under the key. *)
Definition present {A} (v : option A) : bool :=
  match v with Some _ => true | None => false end.

(** Truth value of the dict: false when it has no key. *)
Definition mf2entry_bool (entry : mf2entry) : bool :=
  present (e_author entry) || present (e_name entry)
  || present (e_content entry) || present (e_url entry)
  || present (e_published entry) || e_other entry.

(** [s] between double quotes. *)
Definition quoted (s : string) : string :=
  String "034"%char (s +:+ String "034"%char EmptyString).

Section ToHtml.

(** [mf2util.parse_dt(published)] followed by [isoformat()] and
    [strftime('%c')]: the two strings, or None when one of the calls
    raises. *)
Variable parse_dt : string → option (string * string).

Definition to_html (entry : mf2entry) : option string :=
  if negb (mf2entry_bool entry) then None
  else
    let html := "<div class=" +:+ quoted "h-cite" +:+ ">" in
    let foot := "</div>" in
    let html :=
      match e_author entry with
      | Some author =>
          let author_html := "<div class=" +:+ quoted "p-author h-card" +:+ ">" in
          let author_foot := "</div>" in
          let '(author_html, author_foot) :=
            match author !! "url" with
            | Some v =>
                (author_html
                 +:+ ("<a class=" +:+ quoted "u-url" +:+ " href="
                      +:+ quoted v +:+ ">"),
                 "</a>" +:+ author_foot)
            | None => (author_html, author_foot)
            end in
          let author_html :=
            match author !! "photo" with
            | Some v => author_html +:+ ("<img src=" +:+ quoted v +:+ " />")
            | None => author_html
            end in
          let author_html :=
            match author !! "name" with
            | Some v =>
                author_html
                +:+ ("<span class=" +:+ quoted "p-name" +:+ ">" +:+ v
                     +:+ "</span>")
            | None => author_html
            end in
          html +:+ (author_html +:+ author_foot)
      | None => html
      end in
    let html :=
      match e_name entry with
      | Some v =>
          html +:+ ("<h1 class=" +:+ quoted "p-name" +:+ ">" +:+ v +:+ "</h1>")
      | None => html
      end in
    let html :=
      match e_content entry with
      | Some v =>
          html
          +:+ ("<div class="
               +:+ quoted ((if present (e_name entry) then "" else "p-name ")
                           +:+ "e-content")
               +:+ ">" +:+ v +:+ "</div>")
      | None => html
      end in
    let permalink := "" in
    let permalink_foot := "" in
    let '(permalink, permalink_foot) :=
      match e_url entry with
      | Some v =>
          (permalink
           +:+ ("<a class=" +:+ quoted "u-url" +:+ " href=" +:+ quoted v
                +:+ ">"),
           permalink_foot +:+ "</a>")
      | None => (permalink, permalink_foot)
      end in
    let permalink :=
      match e_published entry with
      | Some published =>
          let '(pubiso, pubpretty) :=
            match parse_dt published with
            | Some (iso, pretty) => (iso, pretty)
            | None => (published, published)
            end in
          permalink
          +:+ ("<time datetime=" +:+ quoted pubiso +:+ ">" +:+ pubpretty
               +:+ "</time>")
      | None => permalink +:+ "link"
      end in
    let html := html +:+ (permalink +:+ permalink_foot) in
    Some (html +:+ foot).

End ToHtml.

(** An entry with content only, and one with a link and a date. *)
Definition entry_empty : mf2entry :=
  mkMf2entry None None None None None false.
Definition entry_note : mf2entry :=
  mkMf2entry None None (Some "<b>hi</b>") None None false.
Definition entry_dated : mf2entry :=
  mkMf2entry None (Some "Title") None (Some "http://x.example/post")
    (Some "yesterday") false.
Definition parse_dt_fails (published : string) : option (string * string) :=
  None.

(** [t] at the start of [s], at its end, and somewhere inside it. *)
Definition starts_with (s t : string) : Prop := ∃ post, s = t +:+ post.
Definition ends_with (s t : string) : Prop := ∃ pre, s = pre +:+ t.
Definition contains (s t : string) : Prop := ∃ pre post, s = pre +:+ t +:+ post.

(** * Properties *)

(** ** Rows and the first match *)

Lemma first_by_url_Some url rows k i c :
  first_by_url url rows k = Some (i, c) →
  (k ≤ i)%nat ∧ rows !! (i - k)%nat = Some c ∧ entry_url c = url.
Proof.
  revert k. induction rows as [|r rows IH]; simpl; intros k H; [done|].
  destruct (String.eqb (entry_url r) url) eqn:E.
  - injection H as <- <-. apply String.eqb_eq in E.
    rewrite Nat.sub_diag. auto.
  - apply IH in H as (Hle & Hl & Hu).
    split; [lia|]. split; [|done].
    replace (i - k)%nat with (S (i - S k)) by lia. done.
Qed.

Lemma first_by_url_insert url rows k i c c' :
  first_by_url url rows k = Some (i, c) → entry_url c' = url →
  first_by_url url (<[(i - k)%nat := c']> rows) k = Some (i, c').
Proof.
  revert k. induction rows as [|r rows IH]; simpl; intros k H Hu; [done|].
  destruct (String.eqb (entry_url r) url) eqn:E.
  - injection H as <- <-. rewrite Nat.sub_diag. simpl.
    rewrite Hu, String.eqb_refl. done.
  - pose proof (first_by_url_Some _ _ _ _ _ H) as (Hle & _ & _).
    replace (i - k)%nat with (S (i - S k)) by lia. simpl.
    rewrite E. by apply IH.
Qed.

Lemma first_by_url_app url rows k c' :
  first_by_url url rows k = None → entry_url c' = url →
  first_by_url url (rows ++ [c']) k = Some ((k + length rows)%nat, c').
Proof.
  revert k. induction rows as [|r rows IH]; simpl; intros k H Hu.
  - rewrite Hu, String.eqb_refl. do 2 f_equal. lia.
  - destruct (String.eqb (entry_url r) url); [done|].
    rewrite (IH _ H Hu). do 2 f_equal. lia.
Qed.

Lemma first_by_url_None_filter url rows k :
  first_by_url url rows k = None →
  filter (λ c, entry_url c = url) rows = [].
Proof.
  revert k. induction rows as [|r rows IH]; simpl; intros k H; [done|].
  destruct (String.eqb (entry_url r) url) eqn:E; [done|].
  apply String.eqb_neq in E. rewrite filter_cons_False by done. eauto.
Qed.

Ltac fetch_unfold :=
  unfold fetch, try_except_finally, Session,
    session_query_first, needs_fetch, datetime_ge, session_add,
    req_session_get, read_cached, assign, session_commit, session_rollback,
    session_close, log_event, set_tracked, set_table, get_world,
    bind, ret, raise.

Ltac same_world :=
  unfold finish; simpl; rewrite <- ?app_assoc; simpl; reflexivity.

Lemma fetch_eq env url w : fetch env url w = fetch_result env url w.
Proof.
  unfold fetch_result, live_result, refreshed. fetch_unfold. simpl.
  destruct (query_raises env) as [e|]; simpl; [same_world|].
  destruct (first_by_url url (table w) 0) as [[i c]|]; simpl.
  - destruct (entry_expiry c) as [t|]; simpl; [|same_world].
    destruct (t <=? utcnow env); simpl.
    + destruct (http_get env url) as [e|resp]; simpl; [same_world|].
      destruct (not_2xx resp); simpl.
      * destruct (may_overwrite c); simpl;
          (destruct (commit_raises env); simpl; same_world).
      * destruct (commit_raises env); simpl; same_world.
    + destruct (commit_raises env); simpl; same_world.
  - destruct (http_get env url) as [e|resp]; simpl; [same_world|].
    destruct (not_2xx resp); simpl.
    + destruct (may_overwrite (new_Entry url)) eqn:E; simpl;
        (destruct (commit_raises env); simpl; same_world).
    + destruct (commit_raises env); simpl; same_world.
Qed.

(** ** The policy step *)

Lemma good_response_true resp : not_2xx resp = false → Response_bool resp = true.
Proof.
  unfold not_2xx, Response_bool. intros H.
  apply negb_false_iff, Z.eqb_eq in H.
  apply negb_true_iff, andb_false_iff. left. apply Z.leb_gt.
  pose proof (Z.div_mod (status_code resp) 100).
  pose proof (Z.mod_pos_bound (status_code resp) 100). lia.
Qed.

Lemma may_overwrite_false c :
  may_overwrite c = false ↔
  ∃ old, entry_response c = Some old ∧ not_2xx old = false.
Proof.
  unfold may_overwrite. destruct (entry_response c) as [old|]; split.
  - intros [_ H]%orb_false_iff. eauto.
  - intros (old' & [= <-] & H). rewrite H, (good_response_true _ H). done.
  - done.
  - intros (? & ? & _). done.
Qed.

Lemma refreshed_url now resp c : entry_url (refreshed now resp c) = entry_url c.
Proof. unfold refreshed. by repeat case_match. Qed.

Lemma refreshed_expiry now resp c :
  entry_expiry (refreshed now resp c)
  = Some (now + timedelta_hours (if not_2xx resp then 1 else 12)).
Proof. unfold refreshed. by repeat case_match. Qed.

Lemma refreshed_keeps_good now resp c old :
  entry_response c = Some old → not_2xx old = false → not_2xx resp = true →
  entry_response (refreshed now resp c) = Some old.
Proof.
  intros Hc Hold Hresp. unfold refreshed. rewrite Hresp.
  assert (may_overwrite c = false) as -> by (apply may_overwrite_false; eauto).
  done.
Qed.

Lemma refreshed_response now resp c :
  entry_response (refreshed now resp c)
  = if not_2xx resp && negb (may_overwrite c) then entry_response c
    else Some resp.
Proof. unfold refreshed. by repeat case_match. Qed.

Lemma stored_after_update url rows i c now resp :
  first_by_url url rows 0 = Some (i, c) →
  first_by_url url (<[i := refreshed now resp c]> rows) 0
  = Some (i, refreshed now resp c).
Proof.
  intros H. pose proof (first_by_url_Some _ _ _ _ _ H) as (_ & _ & Hu).
  rewrite <- (Nat.sub_0_r i) at 1.
  apply (first_by_url_insert _ _ _ _ c); [done|]. by rewrite refreshed_url.
Qed.

Lemma stored_after_insert url rows now resp k :
  first_by_url url rows 0 = None →
  first_by_url url (rows ++ [set_id k (refreshed now resp (new_Entry url))]) 0
  = Some (length rows, set_id k (refreshed now resp (new_Entry url))).
Proof.
  intros H. apply (first_by_url_app _ _ _ _ H). simpl. apply refreshed_url.
Qed.

Ltac fetch_paths :=
  rewrite ?fetch_eq in *; unfold fetch_result, live_result, finish in *.

(** ** Properties of [fetch] *)

(** C1 (non-regression). When the entry stored for a URL holds a 2xx
    response and the live GET of a call answers with a non-2xx status, the
    entry stored for the URL after the call still holds that response.
    Moreover a failure response is stored after a call only if every
    response stored for the URL before the call was a failure as well
    (there was no entry, no response, or a non-2xx one). *)
Theorem fetch_never_regresses env url w :
  (∀ i c old resp,
     first_by_url url (table w) 0 = Some (i, c) →
     entry_response c = Some old → not_2xx old = false →
     http_get env url = inr resp → not_2xx resp = true →
     ∃ c', first_by_url url (table (fetch env url w).2) 0 = Some (i, c')
           ∧ entry_response c' = Some old)
  ∧ (∀ i' c' bad,
       first_by_url url (table (fetch env url w).2) 0 = Some (i', c') →
       entry_response c' = Some bad → not_2xx bad = true →
       ∀ i c old,
         first_by_url url (table w) 0 = Some (i, c) →
         entry_response c = Some old → not_2xx old = true).
Proof.
  split.
  - intros i c old resp Hf Hc Hold Hget Hresp. fetch_paths.
    rewrite Hf, Hget.
    repeat (case_match; simpl); eauto.
    rewrite stored_after_update by done.
    eauto using refreshed_keeps_good.
  - intros i' c' bad Hf' Hc' Hbad i c old Hf Hc. fetch_paths.
    rewrite Hf in Hf'.
    destruct (not_2xx old) eqn:Hold; [done|exfalso].
    repeat (case_match; simpl in *; simplify_eq); try congruence.
    rewrite stored_after_update in Hf' by done. simplify_eq.
    rewrite refreshed_response in Hc'.
    assert (may_overwrite c = false) as Hm by (apply may_overwrite_false; eauto).
    rewrite Hm in Hc'. destruct (not_2xx r) eqn:Hr; simpl in Hc'; congruence.
Qed.

Lemma fetch_never_regresses_witness :
  first_by_url url_x (table world_good) 0 = Some (0%nat, row_good)
  ∧ entry_response row_good = Some resp_200
  ∧ not_2xx resp_200 = false
  ∧ http_get env_503 url_x = inr resp_503
  ∧ not_2xx resp_503 = true
  ∧ ∃ c', first_by_url url_x (table (fetch env_503 url_x world_good).2) 0
          = Some (0%nat, c')
          ∧ entry_response c' = Some resp_200.
Proof.
  repeat split.
  apply (proj1 (fetch_never_regresses env_503 url_x world_good)
           0%nat row_good resp_200 resp_503); reflexivity.
Defined.

(** C2 (TTL correctness). Whenever a call performs the live GET and
    returns, the GET gave a response and the entry stored for the URL has
    expiry [now + 12h] if that response is 2xx and [now + 1h] if it is not,
    whether or not the response field was overwritten. *)
Theorem fetch_expiry_ttl env url w res w' :
  fetch env url w = (inr res, w') →
  http_log w' ≠ http_log w →
  ∃ resp i c',
    http_get env url = inr resp
    ∧ first_by_url url (table w') 0 = Some (i, c')
    ∧ entry_expiry c'
      = Some (utcnow env + timedelta_hours (if not_2xx resp then 1 else 12)).
Proof.
  intros Hrun Hlog. fetch_paths.
  repeat (case_match; simpl in *; simplify_eq); try done; simpl.
  - eexists _, _, _. split; [done|].
    rewrite stored_after_update by done. by rewrite refreshed_expiry.
  - eexists _, _, _. split; [done|].
    rewrite stored_after_insert by done. split; [done|].
    simpl. by rewrite refreshed_expiry.
Qed.

Lemma fetch_expiry_ttl_witness :
  (fetch env_503 url_x world_good).2.(http_log) ≠ http_log world_good
  ∧ ∃ resp i c',
      http_get env_503 url_x = inr resp
      ∧ first_by_url url_x (table (fetch env_503 url_x world_good).2) 0
        = Some (i, c')
      ∧ entry_expiry c'
        = Some (1000 + timedelta_hours (if not_2xx resp then 1 else 12)).
Proof.
  assert (H : (fetch env_503 url_x world_good).2.(http_log)
              ≠ http_log world_good) by (vm_compute; discriminate).
  split; [exact H|].
  exact (fetch_expiry_ttl env_503 url_x world_good (Some resp_200)
           (fetch env_503 url_x world_good).2 eq_refl H).
Defined.

(** C3 (fresh hit). With the query answering and an entry stored for the
    URL whose expiry is [t]: if [now < t] the call performs no GET, leaves
    the table as it was, writes nothing (the session is opened, queried,
    committed, rolled back if the commit faults, and closed) and, the commit
    not faulting, returns the stored response; if [t <= now] (also [t = now]) the entry is
    stale and the call performs the GET. *)
Theorem fetch_fresh_hit env url w i c t :
  query_raises env = None →
  first_by_url url (table w) 0 = Some (i, c) →
  entry_expiry c = Some t →
  (utcnow env < t →
     http_log (fetch env url w).2 = http_log w
     ∧ table (fetch env url w).2 = table w
     ∧ session_log (fetch env url w).2
       = session_log w ++ [EvOpen; EvQuery url; EvCommit]
         ++ match commit_raises env with
            | None => [EvClose]
            | Some _ => [EvRollback; EvClose]
            end
     ∧ (commit_raises env = None →
        (fetch env url w).1 = inr (entry_response c)))
  ∧ (t ≤ utcnow env →
     http_log (fetch env url w).2 = http_log w ++ [url]).
Proof.
  intros Hq Hf He. fetch_paths. rewrite Hq, Hf, He. split.
  - intros Hlt. apply Z.leb_gt in Hlt. rewrite Hlt.
    by destruct (commit_raises env).
  - intros Hle. apply Z.leb_le in Hle. rewrite Hle.
    by repeat (case_match; simpl).
Qed.

Lemma fetch_fresh_hit_witness :
  query_raises env_early = None
  ∧ first_by_url url_x (table world_good) 0 = Some (0%nat, row_good)
  ∧ entry_expiry row_good = Some 100
  ∧ utcnow env_early < 100
  ∧ http_log (fetch env_early url_x world_good).2 = http_log world_good
  ∧ table (fetch env_early url_x world_good).2 = table world_good
  ∧ (fetch env_early url_x world_good).1 = inr (Some resp_200).
Proof.
  pose proof (proj1 (fetch_fresh_hit env_early url_x world_good 0%nat
                       row_good 100 eq_refl eq_refl eq_refl) eq_refl)
    as (Hlog & Htable & _ & Hret).
  do 4 (split; [exact eq_refl|]).
  split; [exact Hlog|]. split; [exact Htable | exact (Hret eq_refl)].
Defined.

(** C6 (first fetch). With the query answering and no entry stored for the
    URL, the call performs exactly one GET; and when the GET gives a
    response and the commit does not fault, exactly one row is added to the
    table, for this URL and holding that response, after which the table has
    exactly one row for the URL. *)
Theorem fetch_first_time env url w :
  query_raises env = None →
  first_by_url url (table w) 0 = None →
  http_log (fetch env url w).2 = http_log w ++ [url]
  ∧ (∀ resp,
       http_get env url = inr resp → commit_raises env = None →
       ∃ row,
         table (fetch env url w).2 = table w ++ [row]
         ∧ entry_url row = url
         ∧ entry_response row = Some resp
         ∧ length (filter (λ c, entry_url c = url)
                     (table (fetch env url w).2)) = 1%nat).
Proof.
  intros Hq Hf. fetch_paths. rewrite Hq, Hf. split.
  - by repeat (case_match; simpl).
  - intros resp Hget Hc. rewrite Hget, Hc. simpl.
    eexists. split; [done|]. split; [apply refreshed_url|].
    split.
    + simpl. rewrite refreshed_response. unfold may_overwrite. simpl.
      by rewrite andb_false_r.
    + rewrite filter_app, (first_by_url_None_filter _ _ _ Hf).
      rewrite filter_cons_True by (simpl; apply refreshed_url). done.
Qed.

Lemma fetch_first_time_witness :
  query_raises env_ok = None
  ∧ first_by_url url_x (table world_empty) 0 = None
  ∧ http_log (fetch env_ok url_x world_empty).2 = [url_x]
  ∧ ∃ row,
      table (fetch env_ok url_x world_empty).2 = [row]
      ∧ entry_url row = url_x
      ∧ entry_response row = Some resp_200
      ∧ length (filter (λ c, entry_url c = url_x)
                  (table (fetch env_ok url_x world_empty).2)) = 1%nat.
Proof.
  pose proof (fetch_first_time env_ok url_x world_empty eq_refl eq_refl)
    as [Hlog Hrow].
  do 2 (split; [exact eq_refl|]).
  split; [exact Hlog | exact (Hrow resp_200 eq_refl eq_refl)].
Defined.

(** C7 (return value). A call that returns gives the response field of the
    entry stored for the URL after the call. In particular, a stale entry
    holding a 2xx response, a live answer that is not 2xx and no fault: the
    call returns the old 2xx response. *)
Theorem fetch_returns_stored_response env url w :
  (∀ res w',
     fetch env url w = (inr res, w') →
     ∃ i c', first_by_url url (table w') 0 = Some (i, c')
             ∧ res = entry_response c')
  ∧ (∀ i c t old resp,
       query_raises env = None → commit_raises env = None →
       first_by_url url (table w) 0 = Some (i, c) →
       entry_expiry c = Some t → t ≤ utcnow env →
       entry_response c = Some old → not_2xx old = false →
       http_get env url = inr resp → not_2xx resp = true →
       (fetch env url w).1 = inr (Some old)).
Proof.
  split.
  - intros res w' Hrun. fetch_paths.
    repeat (case_match; simpl in *; simplify_eq); try done; simpl.
    + rewrite stored_after_update by done. eauto.
    + eauto.
    + rewrite stored_after_insert by done. eauto.
  - intros i c t old resp Hq Hc Hf He Hle Hold Hgood Hget Hbad. fetch_paths.
    apply Z.leb_le in Hle. rewrite Hq, Hf, He, Hle, Hget, Hc. simpl.
    by rewrite (refreshed_keeps_good _ _ _ _ Hold Hgood Hbad).
Qed.

Lemma fetch_returns_stored_response_witness :
  (∃ i c',
     first_by_url url_x (table (fetch env_503 url_x world_good).2) 0
     = Some (i, c')
     ∧ (fetch env_503 url_x world_good).1 = inr (entry_response c'))
  ∧ (fetch env_503 url_x world_good).1 = inr (Some resp_200).
Proof.
  split.
  - destruct (proj1 (fetch_returns_stored_response env_503 url_x world_good)
                (Some resp_200) (fetch env_503 url_x world_good).2 eq_refl)
      as (i & c' & Hs & Hr).
    exists i, c'. split; [exact Hs|]. exact (f_equal inr Hr).
  - exact (proj2 (fetch_returns_stored_response env_503 url_x world_good)
             0%nat row_good 100 resp_200 resp_503
             eq_refl eq_refl eq_refl eq_refl
             ltac:(discriminate) eq_refl eq_refl eq_refl eq_refl).
Defined.



(** C5, as the code has it. A fault raised by the live GET, a transport
    fault or resource exhaustion alike, is not caught and no failure
    response is made from it: the call raises that same exception, the
    table is as it was before the call (neither a response nor a one-hour
    expiry is stored), the session is rolled back and closed. *)
Theorem fetch_transport_fault_propagates env url w e :
  http_get env url = inl e →
  http_log (fetch env url w).2 ≠ http_log w →
  (fetch env url w).1 = inl e
  ∧ table (fetch env url w).2 = table w
  ∧ tracked (fetch env url w).2 = None
  ∧ session_log (fetch env url w).2
    = session_log w ++ [EvOpen; EvQuery url]
      ++ match first_by_url url (table w) 0 with
         | None => [EvAdd]
         | Some _ => []
         end
      ++ [EvRollback; EvClose].
Proof.
  intros Hget Hlog. fetch_paths. rewrite Hget in *.
  repeat (case_match; simpl in *; simplify_eq); done.
Qed.

Lemma fetch_transport_fault_propagates_witness :
  http_get env_timeout url_x = inl Timeout
  ∧ http_log (fetch env_timeout url_x world_good).2 ≠ http_log world_good
  ∧ (fetch env_timeout url_x world_good).1 = inl Timeout
  ∧ table (fetch env_timeout url_x world_good).2 = table world_good.
Proof.
  assert (H : http_log (fetch env_timeout url_x world_good).2
              ≠ http_log world_good) by (vm_compute; discriminate).
  split; [exact eq_refl|]. split; [exact H|].
  destruct (fetch_transport_fault_propagates env_timeout url_x world_good
              Timeout eq_refl H) as (Hraise & Htable & _).
  split; [exact Hraise | exact Htable].
Defined.

(** C5 as stated fails: the GET of a URL never seen times out, and the call
    raises [Timeout] and stores nothing, where the claim has it return with
    a failure entry stored under the one-hour expiry. *)
Lemma transport_fault_not_synthesised :
  http_get env_timeout url_x = inl Timeout
  ∧ (fetch env_timeout url_x world_empty).1 = inl Timeout
  ∧ table (fetch env_timeout url_x world_empty).2 = []
  ∧ ¬ (∃ res i c,
         (fetch env_timeout url_x world_empty).1 = inr res
         ∧ first_by_url url_x
             (table (fetch env_timeout url_x world_empty).2) 0 = Some (i, c)
         ∧ entry_expiry c
           = Some (utcnow env_timeout + timedelta_hours 1)).
Proof.
  repeat split; try reflexivity.
  intros (res & i & c & Hres & _). vm_compute in Hres. discriminate.
Qed.

(** ** The scenarios of the specification, run *)

(** Scenario A: an unseen URL and a 200 answer; the response is stored with
    expiry [now + 12h], and a second call a minute later returns it without
    a GET. *)
Example scenario_A :
  let '(r1, w1) := fetch env_ok url_x world_empty in
  let '(r2, w2) := fetch env_minute_later url_x w1 in
  r1 = inr (Some resp_200)
  ∧ table w1 = [mkEntry (Some 1) url_x (Some (1000 + timedelta_hours 12))
                  (Some resp_200)]
  ∧ r2 = inr (Some resp_200)
  ∧ http_log w2 = [url_x]
  ∧ table w2 = table w1.
Proof. vm_compute. done. Qed.

(** Scenario B: a stored 200 response past its expiry and a 503 answer; the
    200 response stays and the expiry becomes [now + 1h]. *)
Example scenario_B :
  let '(r, w) := fetch env_503 url_x world_good in
  r = inr (Some resp_200)
  ∧ table w = [mkEntry (Some 1) url_x (Some (1000 + timedelta_hours 1))
                 (Some resp_200)].
Proof. vm_compute. done. Qed.

(** Scenario C: an unseen URL and a 503 answer; the 503 response is stored
    with expiry [now + 1h], and a call before that expiry returns it without
    a GET. *)
Example scenario_C :
  let '(r1, w1) := fetch env_503 url_x world_empty in
  let '(r2, w2) := fetch env_minute_later url_x w1 in
  r1 = inr (Some resp_503)
  ∧ table w1 = [mkEntry (Some 1) url_x (Some (1000 + timedelta_hours 1))
                  (Some resp_503)]
  ∧ r2 = inr (Some resp_503)
  ∧ http_log w2 = [url_x].
Proof. vm_compute. done. Qed.

(** ** Properties of the handler and of the rewriter *)

Lemma plus_k_Some {R} cls s (k : string → option R) r :
  plus_k cls s k = Some r → ∃ rest, k rest = Some r.
Proof.
  induction s as [|c s IH]; simpl; [done|].
  destruct (cls c); [|done].
  destruct (plus_k cls s k) eqn:E; [intros [= <-]; auto | eauto].
Qed.

Lemma TWITTER_RE_groups is_word url m :
  re_match (TWITTER_RE is_word) url = Some m →
  ∃ user status, m = [(2%nat, status); (1%nat, user)].
Proof.
  unfold re_match, TWITTER_RE. simpl. intros H.
  repeat match goal with
  | H : match ?x with Some _ => _ | None => _ end = Some _ |- _ =>
      destruct x eqn:?; simplify_eq
  | H : plus_k _ _ _ = Some _ |- _ => apply plus_k_Some in H as [? H]
  | H : Some _ = Some _ |- _ => injection H as H
  end; eauto.
Qed.

Section HandlerProperties.

Variable is_word : ascii → bool.
Variable quote_plus : string → string.
Variable mf2py_parse : string → string → json.
Variable mf2util_interpret : json → string → json.
Variable json_dumps : json → string.

Abbreviation handler :=
  (fetch_context is_word quote_plus mf2py_parse mf2util_interpret json_dumps).

(** C8 (missing URL parameter). A request without a [url] parameter is
    answered with status 400 and the JSON error [missing_url], and the
    world is left as it was: no session is opened, no query, no commit,
    no GET. *)
Theorem fetch_context_missing_url config env args w :
  args_get "url" args = None →
  handler config env args w = (inr missing_url_response, w)
  ∧ fr_status missing_url_response = 400
  ∧ fr_body missing_url_response
    = BodyJson (JObj [("error", JStr "missing_url");
                      ("message", JStr "Missing 'url' query parameter")]).
Proof.
  intros H. unfold fetch_context. rewrite H. done.
Qed.

(** C10 (empty URL parameter). A request whose [url] parameter is the
    empty string gets the same answer as one without the parameter, and
    the world is left as it was. *)
Theorem fetch_context_empty_url config env args w :
  args_get "url" args = Some "" →
  handler config env args w = (inr missing_url_response, w)
  ∧ ∀ args', args_get "url" args' = None →
             handler config env args w = handler config env args' w.
Proof.
  intros H. unfold fetch_context. rewrite H. split; [done|].
  intros args' ->. done.
Qed.

(** C9 (proxy rewriter). [maybe_proxy] is a function of the configuration
    and the URL alone. It returns the URL unchanged when a credential is
    missing or the URL does not match [TWITTER_RE]; with both credentials
    and a match it returns the proxy endpoint for the status id (group 2)
    with the credentials in its query string; hence it changes a URL only
    when both credentials are configured and the URL matches. *)
Theorem maybe_proxy_rewrites_only_with_credentials config url :
  (config !! "TWITTER_AU_KEY" = None
   ∨ config !! "TWITTER_AU_SECRET" = None
   ∨ re_match (TWITTER_RE is_word) url = None →
   maybe_proxy is_word quote_plus config url = url)
  ∧ (∀ key secret m,
       config !! "TWITTER_AU_KEY" = Some key →
       config !! "TWITTER_AU_SECRET" = Some secret →
       re_match (TWITTER_RE is_word) url = Some m →
       ∃ status,
         group 2 m = Some status
         ∧ maybe_proxy is_word quote_plus config url
           = "https://twitter-activitystreams.appspot.com/@me/@all/@app/"
             +:+ status +:+ "?"
             +:+ urlencode quote_plus [("format", "html");
                                       ("access_token_key", key);
                                       ("access_token_secret", secret)])
  ∧ (maybe_proxy is_word quote_plus config url ≠ url →
     is_Some (config !! "TWITTER_AU_KEY")
     ∧ is_Some (config !! "TWITTER_AU_SECRET")
     ∧ is_Some (re_match (TWITTER_RE is_word) url)).
Proof.
  unfold maybe_proxy. repeat split.
  - intros [-> | [-> | ->]]; [done | | ]; by repeat case_match.
  - intros key secret m -> -> Hm. rewrite Hm.
    destruct (TWITTER_RE_groups _ _ _ Hm) as (user & status & ->).
    by exists status.
  - by repeat case_match.
  - by repeat case_match.
  - by repeat case_match.
Qed.

End HandlerProperties.

Lemma fetch_context_missing_url_witness :
  args_get "url" [("callback", "cb")] = None
  ∧ fetch_context ascii_word quote_plain parse_nothing interpret_nothing
      dumps_nothing config_none env_ok [("callback", "cb")] world_empty
    = (inr missing_url_response, world_empty).
Proof.
  split; [exact eq_refl|].
  exact (proj1 (fetch_context_missing_url ascii_word quote_plain
                  parse_nothing interpret_nothing dumps_nothing
                  config_none env_ok [("callback", "cb")] world_empty
                  eq_refl)).
Defined.

Lemma fetch_context_empty_url_witness :
  args_get "url" [("url", ""); ("url", url_x)] = Some ""
  ∧ fetch_context ascii_word quote_plain parse_nothing interpret_nothing
      dumps_nothing config_none env_ok [("url", ""); ("url", url_x)]
      world_empty
    = (inr missing_url_response, world_empty).
Proof.
  split; [exact eq_refl|].
  exact (proj1 (fetch_context_empty_url ascii_word quote_plain
                  parse_nothing interpret_nothing dumps_nothing
                  config_none env_ok [("url", ""); ("url", url_x)]
                  world_empty eq_refl)).
Defined.

Lemma maybe_proxy_rewrites_only_with_credentials_witness :
  config_none !! "TWITTER_AU_KEY" = None
  ∧ maybe_proxy ascii_word quote_plain config_none url_tweet = url_tweet
  ∧ config_both !! "TWITTER_AU_KEY" = Some "k"
  ∧ config_both !! "TWITTER_AU_SECRET" = Some "s"
  ∧ re_match (TWITTER_RE ascii_word) url_tweet
    = Some [(2%nat, "12345"); (1%nat, "kylewm")]
  ∧ ∃ status,
      group 2 [(2%nat, "12345"); (1%nat, "kylewm")] = Some status
      ∧ maybe_proxy ascii_word quote_plain config_both url_tweet
        = "https://twitter-activitystreams.appspot.com/@me/@all/@app/"
          +:+ status +:+ "?"
          +:+ urlencode quote_plain [("format", "html");
                                     ("access_token_key", "k");
                                     ("access_token_secret", "s")].
Proof.
  pose proof (maybe_proxy_rewrites_only_with_credentials ascii_word
                quote_plain config_none url_tweet) as (Hsame & _ & _).
  pose proof (maybe_proxy_rewrites_only_with_credentials ascii_word
                quote_plain config_both url_tweet) as (_ & Hproxy & _).
  split; [exact eq_refl|]. split; [exact (Hsame (or_introl eq_refl))|].
  do 3 (split; [exact eq_refl|]).
  exact (Hproxy "k" "s" _ eq_refl eq_refl eq_refl).
Defined.

(** * Further properties *)

(** ** The table across a call *)

Lemma first_by_url_None url rows k :
  first_by_url url rows k = None ↔ url ∉ entry_url <$> rows.
Proof.
  revert k. induction rows as [|r rows IH]; simpl; intros k.
  - split; [intros _; apply not_elem_of_nil | done].
  - destruct (String.eqb (entry_url r) url) eqn:E.
    + apply String.eqb_eq in E. split; [done|]. intros H. destruct H. subst. left.
    + apply String.eqb_neq in E. rewrite IH, not_elem_of_cons.
      split; [intros H; split; [congruence | done] | intros [_ H]; done].
Qed.

Lemma first_by_url_insert_other url' rows k i c c' :
  rows !! i = Some c → entry_url c' = entry_url c → entry_url c ≠ url' →
  first_by_url url' (<[i := c']> rows) k = first_by_url url' rows k.
Proof.
  revert k i. induction rows as [|r rows IH]; intros k [|i]; simpl; try done.
  - intros [= ->] -> Hne. apply String.eqb_neq in Hne. by rewrite Hne.
  - intros Hi Hu Hne. destruct (String.eqb (entry_url r) url'); eauto.
Qed.

Lemma first_by_url_app_other url' rows k c' :
  entry_url c' ≠ url' →
  first_by_url url' (rows ++ [c']) k = first_by_url url' rows k.
Proof.
  revert k. induction rows as [|r rows IH]; simpl; intros k Hne.
  - apply String.eqb_neq in Hne. by rewrite Hne.
  - destruct (String.eqb (entry_url r) url'); eauto.
Qed.

Lemma refreshed_id now resp c : entry_id (refreshed now resp c) = entry_id c.
Proof. unfold refreshed. by repeat case_match. Qed.

Lemma refreshed_complete now resp c : row_complete (refreshed now resp c).
Proof.
  split; [rewrite refreshed_expiry; eauto|].
  rewrite refreshed_response.
  destruct (may_overwrite c) eqn:E; rewrite ?andb_false_r; simpl; eauto.
  apply may_overwrite_false in E as (old & -> & _). case_match; eauto.
Qed.

(** The table after a call: as before, or with the row found for the URL
    replaced by its refreshed version, or with one row for the URL added. *)
Lemma fetch_table_cases env url w :
  table (fetch env url w).2 = table w
  ∨ (∃ i c resp,
       first_by_url url (table w) 0 = Some (i, c)
       ∧ table (fetch env url w).2
         = <[i := refreshed (utcnow env) resp c]> (table w))
  ∨ (∃ resp,
       first_by_url url (table w) 0 = None
       ∧ table (fetch env url w).2
         = table w ++ [set_id (next_id (table w))
                         (refreshed (utcnow env) resp (new_Entry url))]).
Proof.
  fetch_paths. repeat (case_match; simpl in *; simplify_eq); eauto 10.
Qed.

(** X1 (frame). A call for [url] never removes a row, adds at most one,
    leaves the [url] and [id] columns of every row as they were, leaves
    every row of another URL untouched, and so leaves what is stored for any
    other URL as it was. *)
Theorem fetch_touches_only_its_url env url w :
  (length (table w) ≤ length (table (fetch env url w).2)
   ≤ S (length (table w)))%nat
  ∧ (∀ j c, table w !! j = Some c →
       ∃ c', table (fetch env url w).2 !! j = Some c'
             ∧ entry_url c' = entry_url c ∧ entry_id c' = entry_id c
             ∧ (entry_url c ≠ url → c' = c))
  ∧ (∀ url', url' ≠ url →
       first_by_url url' (table (fetch env url w).2) 0
       = first_by_url url' (table w) 0).
Proof.
  destruct (fetch_table_cases env url w)
    as [-> | [(i & c & resp & Hf & ->) | (resp & Hf & ->)]].
  - repeat split; eauto; lia.
  - pose proof (first_by_url_Some _ _ _ _ _ Hf) as (_ & Hi & Hu).
    rewrite Nat.sub_0_r in Hi. repeat split.
    + rewrite length_insert. lia.
    + rewrite length_insert. lia.
    + intros j c0 Hj. destruct (decide (i = j)) as [<-|Hne].
      * simplify_eq. exists (refreshed (utcnow env) resp c).
        rewrite list_lookup_insert_eq by (by eapply lookup_lt_Some).
        rewrite refreshed_url, refreshed_id. done.
      * exists c0. by rewrite list_lookup_insert_ne.
    + intros url' Hne. apply (first_by_url_insert_other _ _ _ _ c); try done.
      * apply refreshed_url.
      * congruence.
  - repeat split.
    + rewrite length_app. lia.
    + rewrite length_app. simpl. lia.
    + intros j c Hj. exists c. rewrite lookup_app_l by (by eapply lookup_lt_Some).
      done.
    + intros url' Hne. apply first_by_url_app_other. simpl.
      rewrite refreshed_url. done.
Qed.

Lemma fetch_touches_only_its_url_witness :
  table world_good !! 0%nat = Some row_good
  ∧ "http://other.example/" ≠ url_x
  ∧ (∃ c', table (fetch env_ok url_x world_good).2 !! 0%nat = Some c'
           ∧ entry_url c' = url_x ∧ entry_id c' = Some 1)
  ∧ first_by_url "http://other.example/"
      (table (fetch env_ok url_x world_good).2) 0 = None.
Proof.
  destruct (fetch_touches_only_its_url env_ok url_x world_good)
    as (_ & Hrow & Hother).
  assert (Hne : "http://other.example/" ≠ url_x) by discriminate.
  split; [exact eq_refl|]. split; [exact Hne|]. split.
  - destruct (Hrow 0%nat row_good eq_refl) as (c' & H1 & H2 & H3 & _).
    exists c'. split; [exact H1|]. split; [exact H2 | exact H3].
  - exact (Hother _ Hne).
Defined.

(** X2 (one row per URL). If no two rows of the table have the same URL
    before a call, none have after it. *)
Theorem fetch_keeps_urls_unique env url w :
  NoDup (entry_url <$> table w) →
  NoDup (entry_url <$> table (fetch env url w).2).
Proof.
  intros Hnd. destruct (fetch_table_cases env url w)
    as [-> | [(i & c & resp & Hf & ->) | (resp & Hf & ->)]]; [done| |].
  - pose proof (first_by_url_Some _ _ _ _ _ Hf) as (_ & Hi & Hu).
    rewrite Nat.sub_0_r in Hi.
    rewrite list_fmap_insert, refreshed_url, list_insert_id; [done|].
    by rewrite list_lookup_fmap, Hi.
  - rewrite fmap_app. apply NoDup_app. split; [done|]. split.
    + intros u Hu [->|[]%elem_of_nil]%elem_of_cons. simpl in Hu.
      rewrite refreshed_url in Hu. simpl in Hu.
      by apply first_by_url_None in Hf.
    + apply NoDup_singleton.
Qed.

Lemma fetch_keeps_urls_unique_witness :
  NoDup (entry_url <$> table world_good)
  ∧ NoDup (entry_url <$> table (fetch env_503 url_x world_good).2).
Proof.
  assert (H : NoDup (entry_url <$> table world_good))
    by (apply NoDup_singleton).
  split; [exact H|].
  exact (fetch_keeps_urls_unique env_503 url_x world_good H).
Defined.

(** X3 (complete rows). Every row a call writes has its expiry and its
    response set; so if all rows of the table have both before a call, all
    have after it. *)
Theorem fetch_keeps_rows_complete env url w :
  Forall row_complete (table w) →
  Forall row_complete (table (fetch env url w).2).
Proof.
  intros Hall. destruct (fetch_table_cases env url w)
    as [-> | [(i & c & resp & Hf & ->) | (resp & Hf & ->)]]; [done| |].
  - apply Forall_insert; [done|]. apply refreshed_complete.
  - apply Forall_app. split; [done|]. apply Forall_singleton.
    destruct (refreshed_complete (utcnow env) resp (new_Entry url)). done.
Qed.

Lemma fetch_keeps_rows_complete_witness :
  Forall row_complete (table world_good)
  ∧ Forall row_complete (table (fetch env_503 url_x world_good).2).
Proof.
  assert (H : Forall row_complete (table world_good)).
  { apply Forall_singleton. split; eexists; reflexivity. }
  split; [exact H|].
  exact (fetch_keeps_rows_complete env_503 url_x world_good H).
Defined.

(** X4 (a call answers when nothing faults). With the query and the commit
    not faulting, the server answering, and the rows of the table complete,
    a call returns, and what it returns is a response, not None. *)
Theorem fetch_returns_when_nothing_faults env url w resp :
  Forall row_complete (table w) →
  query_raises env = None → commit_raises env = None →
  http_get env url = inr resp →
  ∃ r, (fetch env url w).1 = inr (Some r).
Proof.
  intros Hall Hq Hc Hget. fetch_paths. rewrite Hq, Hc, Hget.
  destruct (first_by_url url (table w) 0) as [[i c]|] eqn:Hf; simpl.
  - pose proof (first_by_url_Some _ _ _ _ _ Hf) as (_ & Hi & _).
    rewrite Nat.sub_0_r in Hi.
    destruct (proj1 (Forall_lookup _ _) Hall _ _ Hi) as [[t Ht] [r Hr]].
    rewrite Ht. destruct (t <=? utcnow env); simpl; [|rewrite Hr; eauto].
    destruct (refreshed_complete (utcnow env) resp c) as [_ [r' ->]]. eauto.
  - destruct (refreshed_complete (utcnow env) resp (new_Entry url))
      as [_ [r' ->]]. eauto.
Qed.

Lemma fetch_returns_when_nothing_faults_witness :
  Forall row_complete (table world_good)
  ∧ query_raises env_503 = None ∧ commit_raises env_503 = None
  ∧ http_get env_503 url_x = inr resp_503
  ∧ ∃ r, (fetch env_503 url_x world_good).1 = inr (Some r).
Proof.
  assert (H : Forall row_complete (table world_good)).
  { apply Forall_singleton. split; eexists; reflexivity. }
  split; [exact H|]. do 3 (split; [exact eq_refl|]).
  exact (fetch_returns_when_nothing_faults env_503 url_x world_good resp_503
           H eq_refl eq_refl eq_refl).
Defined.

(** ** The network and the session across a call *)

Lemma app_singleton_neq {A} (l : list A) x : l ++ [x] ≠ l.
Proof.
  intros H. apply (f_equal length) in H. rewrite length_app in H.
  simpl in H. lia.
Qed.

(** X5 (at most one GET). A call hands the transport at most one URL, its
    own; and it does so exactly when the query answers and finds no row for
    the URL or a row whose expiry has passed. *)
Theorem fetch_at_most_one_get env url w :
  (http_log (fetch env url w).2 = http_log w
   ∨ http_log (fetch env url w).2 = http_log w ++ [url])
  ∧ (http_log (fetch env url w).2 = http_log w ++ [url]
     ↔ query_raises env = None
       ∧ goes_live (utcnow env) (first_by_url url (table w) 0)).
Proof.
  fetch_paths. unfold goes_live.
  repeat (case_match; simpl in *; simplify_eq);
    (split; [auto|]); split;
    try (intros Hlog; exfalso; exact (app_singleton_neq _ _ (eq_sym Hlog)));
    try done; try (intros [? ?]; done).
  all: try (intros _; split; [done|]; eexists; split; [done|];
            by apply Z.leb_le).
  all: try (intros [_ (t & ? & Hle)]; simplify_eq).
  all: try (apply Z.leb_le in Hle; congruence).
Qed.

Lemma fetch_at_most_one_get_witness :
  query_raises env_503 = None
  ∧ goes_live (utcnow env_503) (first_by_url url_x (table world_good) 0)
  ∧ http_log (fetch env_503 url_x world_good).2
    = http_log world_good ++ [url_x].
Proof.
  assert (H : goes_live (utcnow env_503)
                (first_by_url url_x (table world_good) 0)).
  { exists 100. split; [reflexivity | discriminate]. }
  split; [exact eq_refl|]. split; [exact H|].
  exact (proj2 (proj2 (fetch_at_most_one_get env_503 url_x world_good))
           (conj eq_refl H)).
Defined.




(** ** What a live fetch stores *)

(** X8 (a good answer always replaces). When a call performs the GET, the
    answer is 2xx and the call returns, it returns that answer and that
    answer is what is stored for the URL, whatever was stored before. *)
Theorem fetch_success_overwrites env url w res w' resp :
  fetch env url w = (inr res, w') →
  http_log w' ≠ http_log w →
  http_get env url = inr resp → not_2xx resp = false →
  res = Some resp
  ∧ ∃ i c', first_by_url url (table w') 0 = Some (i, c')
            ∧ entry_response c' = Some resp.
Proof.
  intros Hrun Hlog Hget Hgood. fetch_paths. rewrite Hget in *.
  repeat (case_match; simpl in *; simplify_eq); try done; simpl.
  - rewrite stored_after_update by done.
    rewrite refreshed_response, Hgood. simpl. split; [done|].
    eexists _, _. split; [done|]. by rewrite refreshed_response, Hgood.
  - rewrite stored_after_insert by done.
    rewrite refreshed_response, Hgood. simpl. split; [done|].
    eexists _, _. split; [done|]. simpl. by rewrite refreshed_response, Hgood.
Qed.

Lemma fetch_success_overwrites_witness :
  http_log (fetch env_ok url_x world_good).2 ≠ http_log world_good
  ∧ http_get env_ok url_x = inr resp_200 ∧ not_2xx resp_200 = false
  ∧ ∃ i c',
      first_by_url url_x (table (fetch env_ok url_x world_good).2) 0
      = Some (i, c')
      ∧ entry_response c' = Some resp_200.
Proof.
  assert (H : http_log (fetch env_ok url_x world_good).2
              ≠ http_log world_good) by (vm_compute; discriminate).
  split; [exact H|]. do 2 (split; [exact eq_refl|]).
  exact (proj2 (fetch_success_overwrites env_ok url_x world_good
                  (Some resp_200) (fetch env_ok url_x world_good).2 resp_200
                  eq_refl H eq_refl eq_refl)).
Defined.

(** X9 (a failure is stored when there is nothing good to keep). When a
    call performs the GET, the answer is not 2xx, the call returns, and
    before the call the URL had no row, or a row without response, or a row
    whose response was not 2xx, then the call returns the failure answer and
    that answer is what is stored for the URL. *)
Theorem fetch_failure_stored_without_good env url w res w' resp :
  fetch env url w = (inr res, w') →
  http_log w' ≠ http_log w →
  http_get env url = inr resp → not_2xx resp = true →
  (∀ i c old, first_by_url url (table w) 0 = Some (i, c) →
              entry_response c = Some old → not_2xx old = true) →
  res = Some resp
  ∧ ∃ i c', first_by_url url (table w') 0 = Some (i, c')
            ∧ entry_response c' = Some resp.
Proof.
  intros Hrun Hlog Hget Hbad Hprior. fetch_paths. rewrite Hget in *.
  repeat (case_match; simpl in *; simplify_eq); try done; simpl.
  - rewrite stored_after_update by done.
    match goal with
    | |- context [refreshed _ _ ?c] =>
        assert (may_overwrite c = true) as Hm
    end.
    { match goal with
      | |- may_overwrite ?c = true =>
          destruct (may_overwrite c) eqn:E; [done|];
          apply may_overwrite_false in E as (old & Ho & Hg);
          rewrite (Hprior _ _ _ eq_refl Ho) in Hg; done
      end. }
    rewrite refreshed_response, Hm, andb_false_r. split; [done|].
    eexists _, _. split; [done|]. by rewrite refreshed_response, Hm, andb_false_r.
  - rewrite stored_after_insert by done.
    rewrite refreshed_response. unfold may_overwrite at 1. simpl.
    rewrite andb_false_r. split; [done|].
    eexists _, _. split; [done|]. simpl. rewrite refreshed_response.
    unfold may_overwrite. simpl. by rewrite andb_false_r.
Qed.

Lemma fetch_failure_stored_without_good_witness :
  http_log (fetch env_503 url_x world_empty).2 ≠ http_log world_empty
  ∧ http_get env_503 url_x = inr resp_503 ∧ not_2xx resp_503 = true
  ∧ (fetch env_503 url_x world_empty).1 = inr (Some resp_503).
Proof.
  assert (H : http_log (fetch env_503 url_x world_empty).2
              ≠ http_log world_empty) by (vm_compute; discriminate).
  split; [exact H|]. do 2 (split; [exact eq_refl|]).
  exact (f_equal inr
           (proj1 (fetch_failure_stored_without_good env_503 url_x
                     world_empty (Some resp_503)
                     (fetch env_503 url_x world_empty).2 resp_503
                     eq_refl H eq_refl eq_refl
                     ltac:(intros i c old Hf; discriminate Hf)))).
Defined.

(** ** Calls in sequence, and a row without expiry *)

(** What a call that went live and returned leaves stored. *)
Lemma live_call_stored env url w res w' :
  fetch env url w = (inr res, w') →
  http_log w' ≠ http_log w →
  ∃ resp i c',
    http_get env url = inr resp
    ∧ first_by_url url (table w') 0 = Some (i, c')
    ∧ entry_expiry c'
      = Some (utcnow env + timedelta_hours (if not_2xx resp then 1 else 12))
    ∧ entry_response c' = res.
Proof.
  intros Hrun Hlog. fetch_paths.
  repeat (case_match; simpl in *; simplify_eq); try done; simpl.
  - eexists _, _, _. split; [done|].
    rewrite stored_after_update by done. by rewrite refreshed_expiry.
  - eexists _, _, _. split; [done|].
    rewrite stored_after_insert by done. split; [done|].
    simpl. by rewrite refreshed_expiry.
Qed.

(** A call that finds a fresh row, the store not faulting. *)
Lemma fresh_call env url w i c t :
  query_raises env = None → commit_raises env = None →
  first_by_url url (table w) 0 = Some (i, c) →
  entry_expiry c = Some t → utcnow env < t →
  fetch env url w
  = (inr (entry_response c),
     finish w (table w) (http_log w)
       [EvOpen; EvQuery url; EvCommit; EvClose]).
Proof.
  intros Hq Hc Hf He Hlt. fetch_paths. apply Z.leb_gt in Hlt.
  by rewrite Hq, Hf, He, Hlt, Hc.
Qed.

(** X10 (a second call inside the time to live is served from the store).
    After a call that went live at time [t1] and returned, a call for the
    same URL at a time before [t1] plus the time to live of the answer (12
    hours if it was 2xx, one hour if not), the store not faulting, performs
    no GET, leaves the table as it is and returns what the first call
    returned. *)
Theorem fetch_then_cached env1 env2 url w res w1 resp :
  fetch env1 url w = (inr res, w1) →
  http_log w1 ≠ http_log w →
  http_get env1 url = inr resp →
  query_raises env2 = None → commit_raises env2 = None →
  utcnow env2
  < utcnow env1 + timedelta_hours (if not_2xx resp then 1 else 12) →
  (fetch env2 url w1).1 = inr res
  ∧ http_log (fetch env2 url w1).2 = http_log w1
  ∧ table (fetch env2 url w1).2 = table w1.
Proof.
  intros Hrun Hlog Hget Hq Hc Hlt.
  destruct (live_call_stored _ _ _ _ _ Hrun Hlog)
    as (resp' & i & c' & Hget' & Hf & He & Hr).
  rewrite Hget in Hget'. injection Hget' as <-.
  rewrite (fresh_call _ _ _ _ _ _ Hq Hc Hf He Hlt). by rewrite Hr.
Qed.

Lemma fetch_then_cached_witness :
  http_log (fetch env_ok url_x world_empty).2 ≠ http_log world_empty
  ∧ utcnow env_minute_later < utcnow env_ok + timedelta_hours 12
  ∧ (fetch env_minute_later url_x (fetch env_ok url_x world_empty).2).1
    = inr (Some resp_200)
  ∧ http_log (fetch env_minute_later url_x
                (fetch env_ok url_x world_empty).2).2
    = [url_x].
Proof.
  assert (H : http_log (fetch env_ok url_x world_empty).2
              ≠ http_log world_empty) by (vm_compute; discriminate).
  destruct (fetch_then_cached env_ok env_minute_later url_x world_empty
              (Some resp_200) (fetch env_ok url_x world_empty).2 resp_200
              eq_refl H eq_refl eq_refl eq_refl eq_refl)
    as (Hret & Hlog & _).
  split; [exact H|]. split; [exact eq_refl|].
  split; [exact Hret | exact Hlog].
Defined.

(** X11 (a row without expiry). When the row found for the URL has no
    expiry, the comparison with the clock raises: the call raises
    [TypeError], performs no GET and leaves the table as it was, so the row
    stays as it is and every later call for the URL that reaches it raises
    again. *)
Theorem fetch_null_expiry_raises env url w i c :
  query_raises env = None →
  first_by_url url (table w) 0 = Some (i, c) →
  entry_expiry c = None →
  (fetch env url w).1 = inl TypeError
  ∧ http_log (fetch env url w).2 = http_log w
  ∧ table (fetch env url w).2 = table w
  ∧ ∀ env', query_raises env' = None →
            (fetch env' url (fetch env url w).2).1 = inl TypeError.
Proof.
  intros Hq Hf He. fetch_paths. rewrite Hq, Hf, He. simpl.
  repeat split. intros env' Hq'. rewrite fetch_eq. unfold fetch_result.
  simpl. by rewrite Hq', Hf, He.
Qed.

Lemma fetch_null_expiry_raises_witness :
  query_raises env_ok = None
  ∧ first_by_url url_x (table world_null_expiry) 0
    = Some (0%nat, row_null_expiry)
  ∧ entry_expiry row_null_expiry = None
  ∧ (fetch env_ok url_x world_null_expiry).1 = inl TypeError
  ∧ table (fetch env_ok url_x world_null_expiry).2 = [row_null_expiry].
Proof.
  destruct (fetch_null_expiry_raises env_ok url_x world_null_expiry 0%nat
              row_null_expiry eq_refl eq_refl eq_refl)
    as (Hraise & _ & Htable & _).
  do 3 (split; [exact eq_refl|]). split; [exact Hraise | exact Htable].
Defined.

(** ** The pattern and the rewriter *)

Lemma strip_prefix_app p rest : strip_prefix p (p +:+ rest) = Some rest.
Proof.
  induction p as [|a p IH]; simpl; [by destruct rest|].
  by rewrite Ascii.eqb_refl.
Qed.

Lemma strip_prefix_Some p s rest :
  strip_prefix p s = Some rest → s = p +:+ rest.
Proof.
  revert s. induction p as [|a p IH]; intros s; simpl.
  - by intros [= ->].
  - destruct s as [|b s]; [done|].
    destruct (Ascii.eqb a b) eqn:E; [|done].
    apply Ascii.eqb_eq in E as ->. intros H. by rewrite (IH _ H).
Qed.

Lemma length_app_string a b :
  String.length (a +:+ b) = (String.length a + String.length b)%nat.
Proof. induction a as [|c a IH]; simpl; [done | by rewrite IH]. Qed.

Lemma consumed_app run rest : consumed (run +:+ rest) rest = run.
Proof.
  unfold consumed. rewrite length_app_string.
  replace (String.length run + String.length rest - String.length rest)%nat
    with (String.length run) by lia.
  induction run as [|c run IH]; simpl; [by destruct rest | by rewrite IH].
Qed.

(** What [\w+] gives its continuation is a non-empty run of word
    characters taken off the front. *)
Lemma plus_k_sound {R} cls s (k : string → option R) r :
  plus_k cls s k = Some r →
  ∃ run rest, s = run +:+ rest ∧ run ≠ "" ∧ string_forall cls run = true
              ∧ k rest = Some r.
Proof.
  induction s as [|c s IH]; simpl; [done|].
  destruct (cls c) eqn:Hc; [|done].
  destruct (plus_k cls s k) eqn:E.
  - intros [= <-]. destruct (IH eq_refl) as (run & rest & -> & _ & Hall & Hk).
    exists (String c run), rest. simpl. by rewrite Hc, Hall.
  - intros Hk. exists (String c ""), s. simpl. by rewrite Hc.
Qed.

(** A run that cannot be extended is what [\w+] takes first. *)
Lemma plus_k_run {R} cls run rest (k : string → option R) r :
  run ≠ "" → string_forall cls run = true → stops cls rest = true →
  k rest = Some r →
  plus_k cls (run +:+ rest) k = Some r.
Proof.
  intros Hne Hall Hstop Hk. induction run as [|c run IH]; [done|].
  simpl in *. apply andb_prop in Hall as [Hc Hall]. rewrite Hc.
  destruct run as [|c' run].
  - simpl. destruct rest as [|d rest]; simpl; [done|].
    simpl in Hstop. apply negb_true_iff in Hstop. by rewrite Hstop.
  - by rewrite IH.
Qed.

Lemma lit_sound p s caps k m :
  match_k (Lit p) s caps k = Some m →
  ∃ rest, s = p +:+ rest ∧ k rest caps = Some m.
Proof.
  simpl. destruct (strip_prefix p s) eqn:E; [|done].
  apply strip_prefix_Some in E. eauto.
Qed.

Lemma opt_sound r s caps k m :
  match_k (Opt r) s caps k = Some m →
  match_k r s caps k = Some m ∨ k s caps = Some m.
Proof. simpl. destruct (match_k r s caps k); [intros [= <-]|]; auto. Qed.

Lemma alt_sound r1 r2 s caps k m :
  match_k (Alt r1 r2) s caps k = Some m →
  match_k r1 s caps k = Some m ∨ match_k r2 s caps k = Some m.
Proof. simpl. destruct (match_k r1 s caps k); [intros [= <-]|]; auto. Qed.

Lemma group_plus_sound n cls s caps k m :
  match_k (Group n (Plus cls)) s caps k = Some m →
  ∃ run rest, s = run +:+ rest ∧ run ≠ "" ∧ string_forall cls run = true
              ∧ k rest ((n, run) :: caps) = Some m.
Proof.
  simpl. intros (run & rest & -> & Hne & Hall & Hk)%plus_k_sound.
  rewrite consumed_app in Hk. eauto 10.
Qed.

Lemma seq_eq r1 r2 s caps k :
  match_k (Seq r1 r2) s caps k
  = match_k r1 s caps (λ rest caps', match_k r2 rest caps' k).
Proof. reflexivity. Qed.

Lemma lit_complete p rest caps k :
  match_k (Lit p) (p +:+ rest) caps k = k rest caps.
Proof. simpl. by rewrite strip_prefix_app. Qed.

Lemma opt_lit_sound p s caps k m :
  match_k (Opt (Lit p)) s caps k = Some m →
  ∃ o rest, (o = "" ∨ o = p) ∧ s = o +:+ rest ∧ k rest caps = Some m.
Proof.
  intros [(rest & -> & H)%lit_sound | H]%opt_sound.
  - exists p, rest. auto.
  - exists "", s. auto.
Qed.

Lemma opt_alt_lit_sound p q s caps k m :
  match_k (Opt (Alt (Lit p) (Lit q))) s caps k = Some m →
  ∃ o rest, (o = "" ∨ o = p ∨ o = q) ∧ s = o +:+ rest
            ∧ k rest caps = Some m.
Proof.
  intros [[(rest & -> & H)%lit_sound | (rest & -> & H)%lit_sound]%alt_sound
         | H]%opt_sound.
  - exists p, rest. auto.
  - exists q, rest. auto.
  - exists "", s. auto.
Qed.

Lemma opt_eq r s caps k :
  match_k (Opt r) s caps k
  = match match_k r s caps k with
    | Some res => Some res
    | None => k s caps
    end.
Proof. reflexivity. Qed.

Lemma alt_eq r1 r2 s caps k :
  match_k (Alt r1 r2) s caps k
  = match match_k r1 s caps k with
    | Some res => Some res
    | None => match_k r2 s caps k
    end.
Proof. reflexivity. Qed.

Lemma lit_fails p s caps k :
  strip_prefix p s = None → match_k (Lit p) s caps k = None.
Proof. intros H. change (match_k (Lit p) s caps k)
  with (match strip_prefix p s with
        | Some rest => k rest caps
        | None => None
        end). by rewrite H. Qed.

Lemma opt_lit_complete p o rest caps k m :
  o = "" ∨ o = p → strip_prefix p rest = None →
  k rest caps = Some m →
  match_k (Opt (Lit p)) (o +:+ rest) caps k = Some m.
Proof.
  intros [-> | ->] Hno Hk; rewrite opt_eq.
  - change ("" +:+ rest) with rest. by rewrite (lit_fails _ _ _ _ Hno).
  - by rewrite lit_complete, Hk.
Qed.

Lemma opt_alt_lit_complete p q o rest caps k m :
  o = "" ∨ o = p ∨ o = q →
  strip_prefix p rest = None → strip_prefix q rest = None →
  strip_prefix p (q +:+ rest) = None →
  k rest caps = Some m →
  match_k (Opt (Alt (Lit p) (Lit q))) (o +:+ rest) caps k = Some m.
Proof.
  intros [-> | [-> | ->]] Hp Hq Hpq Hk; rewrite opt_eq, alt_eq.
  - change ("" +:+ rest) with rest.
    by rewrite (lit_fails _ _ _ _ Hp), (lit_fails _ _ _ _ Hq).
  - by rewrite lit_complete, Hk.
  - by rewrite (lit_fails _ _ _ _ Hpq), lit_complete, Hk.
Qed.

Lemma group_plus_complete n cls run rest caps k m :
  run ≠ "" → string_forall cls run = true → stops cls rest = true →
  k rest ((n, run) :: caps) = Some m →
  match_k (Group n (Plus cls)) (run +:+ rest) caps k = Some m.
Proof.
  intros Hne Hall Hstop Hk. simpl.
  apply plus_k_run; try done. by rewrite consumed_app.
Qed.

(** X12 (what the pattern accepts). A URL that [TWITTER_RE] matches begins
    with [http] or [https], [://], an optional [www.] or [mobile.],
    [twitter.com/], a non-empty run of word characters (group 1), [/status]
    or [/statuses], [/] and a second non-empty run of word characters
    (group 2); anything may follow. *)
Theorem TWITTER_RE_match_shape is_word url m :
  re_match (TWITTER_RE is_word) url = Some m →
  ∃ s host user es status rest,
    url = "http" +:+ s +:+ "://" +:+ host +:+ "twitter.com/" +:+ user
          +:+ "/status" +:+ es +:+ "/" +:+ status +:+ rest
    ∧ (s = "" ∨ s = "s")
    ∧ (host = "" ∨ host = "www." ∨ host = "mobile.")
    ∧ (es = "" ∨ es = "es")
    ∧ user ≠ "" ∧ string_forall is_word user = true
    ∧ status ≠ "" ∧ string_forall is_word status = true
    ∧ m = [(2%nat, status); (1%nat, user)].
Proof.
  unfold re_match, TWITTER_RE. intros H.
  rewrite seq_eq in H. apply lit_sound in H as (r1 & -> & H).
  rewrite seq_eq in H. apply opt_lit_sound in H as (s & r2 & Hs & -> & H).
  rewrite seq_eq in H. apply lit_sound in H as (r3 & -> & H).
  rewrite seq_eq in H.
  apply opt_alt_lit_sound in H as (host & r4 & Hhost & -> & H).
  rewrite seq_eq in H. apply lit_sound in H as (r5 & -> & H).
  rewrite seq_eq in H.
  apply group_plus_sound in H as (user & r6 & -> & Hu1 & Hu2 & H).
  rewrite seq_eq in H. apply lit_sound in H as (r7 & -> & H).
  rewrite seq_eq in H. apply opt_lit_sound in H as (es & r8 & Hes & -> & H).
  rewrite seq_eq in H. apply lit_sound in H as (r9 & -> & H).
  apply group_plus_sound in H as (status & rest & -> & Hs1 & Hs2 & H).
  injection H as <-.
  exists s, host, user, es, status, rest. done.
Qed.

Lemma TWITTER_RE_match_shape_witness :
  re_match (TWITTER_RE ascii_word) url_tweet
  = Some [(2%nat, "12345"); (1%nat, "kylewm")]
  ∧ ∃ s host user es status rest,
      url_tweet = "http" +:+ s +:+ "://" +:+ host +:+ "twitter.com/" +:+ user
                  +:+ "/status" +:+ es +:+ "/" +:+ status +:+ rest
      ∧ [(2%nat, "12345"); (1%nat, "kylewm")]
        = [(2%nat, status); (1%nat, user)].
Proof.
  split; [exact eq_refl|].
  destruct (TWITTER_RE_match_shape ascii_word url_tweet _ eq_refl)
    as (s & host & user & es & status & rest & Hurl & _ & _ & _ & _ & _ & _
        & _ & Hm).
  exists s, host, user, es, status, rest. split; [exact Hurl | exact Hm].
Defined.

Lemma TWITTER_RE_complete is_word s host user es status rest :
  s = "" ∨ s = "s" →
  host = "" ∨ host = "www." ∨ host = "mobile." →
  es = "" ∨ es = "es" →
  is_word "/"%char = false →
  user ≠ "" → string_forall is_word user = true →
  status ≠ "" → string_forall is_word status = true →
  stops is_word rest = true →
  re_match (TWITTER_RE is_word)
    ("http" +:+ s +:+ "://" +:+ host +:+ "twitter.com/" +:+ user
     +:+ "/status" +:+ es +:+ "/" +:+ status +:+ rest)
  = Some [(2%nat, status); (1%nat, user)].
Proof.
  intros Hs Hhost Hes Hslash Hu1 Hu2 Hs1 Hs2 Hstop.
  unfold re_match, TWITTER_RE.
  rewrite seq_eq, lit_complete, seq_eq.
  apply opt_lit_complete; [done | reflexivity |].
  rewrite seq_eq, lit_complete, seq_eq.
  apply opt_alt_lit_complete; [done | reflexivity.. |].
  rewrite seq_eq, lit_complete, seq_eq.
  apply group_plus_complete; [done | done | simpl; by rewrite Hslash |].
  rewrite seq_eq, lit_complete, seq_eq.
  apply opt_lit_complete; [done | reflexivity |].
  rewrite seq_eq, lit_complete.
  by apply group_plus_complete.
Qed.

Lemma endpoint_no_match is_word tail :
  re_match (TWITTER_RE is_word)
    ("https://twitter-activitystreams.appspot.com/@me/@all/@app/" +:+ tail)
  = None.
Proof. reflexivity. Qed.

Section RewriterProperties.

Variable is_word : ascii → bool.
Variable quote_plus : string → string.

(** X13 (a permalink is rewritten to its status id). With both credentials
    configured and [/] not a word character, a URL made of [http] or
    [https], [://], an optional [www.] or [mobile.], [twitter.com/], a user
    name, [/status] or [/statuses], [/], a status id and a remainder that
    does not continue the id is rewritten to the proxy endpoint of that
    status id; scheme, host variant, user name and remainder do not reach
    the result. *)
Theorem maybe_proxy_permalink config key secret s host user es status rest :
  config !! "TWITTER_AU_KEY" = Some key →
  config !! "TWITTER_AU_SECRET" = Some secret →
  s = "" ∨ s = "s" →
  host = "" ∨ host = "www." ∨ host = "mobile." →
  es = "" ∨ es = "es" →
  is_word "/"%char = false →
  user ≠ "" → string_forall is_word user = true →
  status ≠ "" → string_forall is_word status = true →
  stops is_word rest = true →
  maybe_proxy is_word quote_plus config
    ("http" +:+ s +:+ "://" +:+ host +:+ "twitter.com/" +:+ user
     +:+ "/status" +:+ es +:+ "/" +:+ status +:+ rest)
  = "https://twitter-activitystreams.appspot.com/@me/@all/@app/"
    +:+ status +:+ "?"
    +:+ urlencode quote_plus [("format", "html");
                              ("access_token_key", key);
                              ("access_token_secret", secret)].
Proof.
  intros Hkey Hsecret Hs Hhost Hes Hslash Hu1 Hu2 Hs1 Hs2 Hstop.
  unfold maybe_proxy. rewrite Hkey, Hsecret.
  by rewrite (TWITTER_RE_complete is_word s host user es status rest).
Qed.

(** X14 (rewriting twice is rewriting once). The proxy endpoint is not
    itself matched by [TWITTER_RE], so a rewritten URL is left alone. *)
Theorem maybe_proxy_idempotent config url :
  maybe_proxy is_word quote_plus config
    (maybe_proxy is_word quote_plus config url)
  = maybe_proxy is_word quote_plus config url.
Proof.
  unfold maybe_proxy.
  destruct (config !! "TWITTER_AU_KEY") as [key|]; [|done].
  destruct (config !! "TWITTER_AU_SECRET") as [secret|]; [|done].
  destruct (re_match (TWITTER_RE is_word) url) as [m|] eqn:Hm.
  - by rewrite endpoint_no_match.
  - by rewrite Hm.
Qed.

End RewriterProperties.

Lemma maybe_proxy_permalink_witness :
  config_both !! "TWITTER_AU_KEY" = Some "k"
  ∧ config_both !! "TWITTER_AU_SECRET" = Some "s"
  ∧ ascii_word "/"%char = false
  ∧ string_forall ascii_word "kylewm" = true
  ∧ string_forall ascii_word "12345" = true
  ∧ stops ascii_word "?s=20" = true
  ∧ maybe_proxy ascii_word quote_plain config_both
      ("http" +:+ "s" +:+ "://" +:+ "mobile." +:+ "twitter.com/" +:+ "kylewm"
       +:+ "/status" +:+ "es" +:+ "/" +:+ "12345" +:+ "?s=20")
    = "https://twitter-activitystreams.appspot.com/@me/@all/@app/"
      +:+ "12345" +:+ "?"
      +:+ urlencode quote_plain [("format", "html");
                                 ("access_token_key", "k");
                                 ("access_token_secret", "s")].
Proof.
  do 6 (split; [exact eq_refl|]).
  exact (maybe_proxy_permalink ascii_word quote_plain config_both "k" "s"
           "s" "mobile." "kylewm" "es" "12345" "?s=20"
           eq_refl eq_refl (or_intror eq_refl)
           (or_intror (or_intror eq_refl)) (or_intror eq_refl) eq_refl
           ltac:(discriminate) eq_refl ltac:(discriminate) eq_refl eq_refl).
Defined.

(** ** The handler around [fetch] *)

Lemma arg_bool_Some u : u ≠ "" → arg_bool (Some u) = true.
Proof. intros H. simpl. apply negb_true_iff. by apply String.eqb_neq. Qed.

Section HandlerAroundFetch.

Variable is_word : ascii → bool.
Variable quote_plus : string → string.
Variable mf2py_parse : string → string → json.
Variable mf2util_interpret : json → string → json.
Variable json_dumps : json → string.

Abbreviation handler :=
  (fetch_context is_word quote_plus mf2py_parse mf2util_interpret json_dumps).
Abbreviation rewritten := (maybe_proxy is_word quote_plus).

(** X15 (the handler is one [fetch] of the rewritten URL). For a request
    with a non-empty [url] parameter, what the handler does to the store,
    the session and the network is what [fetch] does for the rewritten URL,
    nothing more; an exception of [fetch] leaves the handler unchanged as
    the handler's own, and a [fetch] that returns None makes the handler
    raise [AttributeError]. *)
Theorem fetch_context_is_one_fetch config env args w u :
  args_get "url" args = Some u → u ≠ "" →
  (handler config env args w).2 = (fetch env (rewritten config u) w).2
  ∧ (∀ e, (fetch env (rewritten config u) w).1 = inl e →
          (handler config env args w).1 = inl e)
  ∧ ((fetch env (rewritten config u) w).1 = inr None →
     (handler config env args w).1 = inl AttributeError).
Proof.
  intros Hurl Hne. unfold fetch_context. rewrite Hurl, (arg_bool_Some _ Hne).
  simpl. unfold bind.
  destruct (fetch env (rewritten config u) w) as [[e|[resp|]] w']; simpl.
  - repeat split; [by intros ? [= ->] | done].
  - unfold ret. repeat case_match; simpl; repeat split; done.
  - repeat split; done.
Qed.

(** X16 (status of the answer). Whenever the handler answers, either the
    [url] parameter was missing or empty and the answer is the 400 error, or
    [fetch] returned a response for the rewritten URL and: if that response
    is not 2xx, the answer has its status code and a [fetch_failed] JSON
    body carrying the rewritten URL, the response text and the code; if it
    is 2xx, the answer has status 200. *)
Theorem fetch_context_status config env args w rv :
  (handler config env args w).1 = inr rv →
  (arg_bool (args_get "url" args) = false ∧ rv = missing_url_response)
  ∨ ∃ u resp,
      args_get "url" args = Some u ∧ u ≠ ""
      ∧ (fetch env (rewritten config u) w).1 = inr (Some resp)
      ∧ (not_2xx resp = true →
         fr_status rv = status_code resp
         ∧ fr_body rv
           = BodyJson
               (JObj [("error", JStr "fetch_failed");
                      ("message",
                       JStr ("Failed to fetch resource at "
                             +:+ rewritten config u));
                      ("response", JStr (text resp));
                      ("code", JNum (status_code resp))]))
      ∧ (not_2xx resp = false → fr_status rv = 200).
Proof.
  unfold fetch_context.
  destruct (args_get "url" args) as [u|] eqn:Hurl; simpl.
  - destruct (String.eqb u "") eqn:Hu; simpl.
    + intros [= <-]. left. done.
    + apply String.eqb_neq in Hu. unfold bind.
      destruct (fetch env (rewritten config u) w) as [[e|[resp|]] w']
        eqn:Hfetch; simpl; try done.
      intros Hrv. right. exists u, resp. do 2 (split; [done|]).
      split; [by rewrite Hfetch|].
      destruct (not_2xx resp); simpl in Hrv.
      * injection Hrv as <-. split; [intros _; by split | intros [=]].
      * split; [intros [=]|]. intros _.
        destruct (arg_bool (args_get "callback" args));
          by injection Hrv as <-.
  - intros [= <-]. left. done.
Qed.

(** X17 (nothing parsed is not an error). When [fetch] returns a 2xx
    response, the interpreter finds nothing in it (its result is false) and
    the request has no [callback] parameter or an empty one, the handler
    answers 200 with the empty JSON object. *)
Theorem fetch_context_nothing_parsed config env args w u resp :
  args_get "url" args = Some u → u ≠ "" →
  (fetch env (rewritten config u) w).1 = inr (Some resp) →
  not_2xx resp = false →
  json_bool (mf2util_interpret
               (mf2py_parse (if has_header "content-type" (headers resp)
                             then text resp else content resp)
                            (rewritten config u))
               (rewritten config u)) = false →
  arg_bool (args_get "callback" args) = false →
  (handler config env args w).1 = inr (jsonify (JObj [])).
Proof.
  intros Hurl Hne Hfetch Hgood Hnone Hcb. unfold fetch_context.
  rewrite Hurl, (arg_bool_Some _ Hne). simpl. unfold bind.
  destruct (fetch env (rewritten config u) w) as [r w']. simpl in Hfetch.
  subst r. by rewrite Hgood, Hnone, Hcb.
Qed.

(** X18 (the row is stored under the rewritten URL). For a request with a
    non-empty [url] parameter whose rewritten URL has no row yet, the store
    not faulting and the server answering, the handler hands the transport
    the rewritten URL and adds one row, whose [url] column is the rewritten
    URL, not the URL of the request. *)
Theorem fetch_context_stores_rewritten_url config env args w u resp :
  args_get "url" args = Some u → u ≠ "" →
  query_raises env = None → commit_raises env = None →
  first_by_url (rewritten config u) (table w) 0 = None →
  http_get env (rewritten config u) = inr resp →
  http_log (handler config env args w).2
  = http_log w ++ [rewritten config u]
  ∧ ∃ row,
      table (handler config env args w).2 = table w ++ [row]
      ∧ entry_url row = rewritten config u
      ∧ entry_response row = Some resp.
Proof.
  intros Hurl Hne Hq Hc Hf Hget.
  assert ((handler config env args w).2
          = (fetch env (rewritten config u) w).2) as ->.
  { unfold fetch_context. rewrite Hurl, (arg_bool_Some _ Hne). simpl.
    unfold bind.
    destruct (fetch env (rewritten config u) w) as [[e|[r|]] w']; simpl;
      try done.
    unfold ret. by repeat case_match. }
  fetch_paths. rewrite Hq, Hf, Hget, Hc. simpl. split; [done|].
  eexists. split; [done|]. split; [apply refreshed_url|].
  simpl. rewrite refreshed_response. unfold may_overwrite. simpl.
  by rewrite andb_false_r.
Qed.

End HandlerAroundFetch.

Lemma fetch_context_status_witness :
  (fetch_context ascii_word quote_plain parse_nothing interpret_nothing
     dumps_nothing config_none env_503 [("url", url_x)] world_empty).1
  = inr (make_response_status
           (jsonify (JObj [("error", JStr "fetch_failed");
                           ("message",
                            JStr ("Failed to fetch resource at " +:+ url_x));
                           ("response", JStr "down");
                           ("code", JNum 503)])) 503)
  ∧ ((arg_bool (args_get "url" [("url", url_x)]) = false
      ∧ make_response_status
          (jsonify (JObj [("error", JStr "fetch_failed");
                          ("message",
                           JStr ("Failed to fetch resource at " +:+ url_x));
                          ("response", JStr "down");
                          ("code", JNum 503)])) 503
        = missing_url_response)
     ∨ ∃ u resp,
         args_get "url" [("url", url_x)] = Some u ∧ u ≠ ""
         ∧ (fetch env_503 (maybe_proxy ascii_word quote_plain config_none u)
              world_empty).1 = inr (Some resp)).
Proof.
  split; [exact eq_refl|].
  destruct (fetch_context_status ascii_word quote_plain parse_nothing
              interpret_nothing dumps_nothing config_none env_503
              [("url", url_x)] world_empty _ eq_refl)
    as [H | (u & resp & H1 & H2 & H3 & _)].
  - left. exact H.
  - right. exists u, resp. split; [exact H1|]. split; [exact H2 | exact H3].
Defined.

Lemma fetch_context_is_one_fetch_witness :
  args_get "url" [("url", url_tweet)] = Some url_tweet
  ∧ url_tweet ≠ ""
  ∧ (fetch_context ascii_word quote_plain parse_nothing interpret_nothing
       dumps_nothing config_both env_ok [("url", url_tweet)] world_empty).2
    = (fetch env_ok (maybe_proxy ascii_word quote_plain config_both url_tweet)
         world_empty).2.
Proof.
  assert (Hne : url_tweet ≠ "") by discriminate.
  split; [exact eq_refl|]. split; [exact Hne|].
  exact (proj1 (fetch_context_is_one_fetch ascii_word quote_plain
                  parse_nothing interpret_nothing dumps_nothing config_both
                  env_ok [("url", url_tweet)] world_empty url_tweet
                  eq_refl Hne)).
Defined.

Lemma fetch_context_nothing_parsed_witness :
  args_get "url" [("url", url_x); ("callback", "")] = Some url_x
  ∧ url_x ≠ ""
  ∧ not_2xx resp_200 = false
  ∧ arg_bool (args_get "callback" [("url", url_x); ("callback", "")]) = false
  ∧ (fetch_context ascii_word quote_plain parse_nothing interpret_nothing
       dumps_nothing config_none env_ok [("url", url_x); ("callback", "")]
       world_empty).1
    = inr (jsonify (JObj [])).
Proof.
  assert (Hne : url_x ≠ "") by discriminate.
  split; [exact eq_refl|]. split; [exact Hne|].
  do 2 (split; [exact eq_refl|]).
  exact (fetch_context_nothing_parsed ascii_word quote_plain parse_nothing
           interpret_nothing dumps_nothing config_none env_ok
           [("url", url_x); ("callback", "")] world_empty url_x resp_200
           eq_refl Hne eq_refl eq_refl eq_refl eq_refl).
Defined.

Lemma fetch_context_stores_rewritten_url_witness :
  args_get "url" [("url", url_tweet)] = Some url_tweet
  ∧ url_tweet ≠ ""
  ∧ http_log
      (fetch_context ascii_word quote_plain parse_nothing interpret_nothing
         dumps_nothing config_both env_ok [("url", url_tweet)]
         world_empty).2
    = [maybe_proxy ascii_word quote_plain config_both url_tweet]
  ∧ maybe_proxy ascii_word quote_plain config_both url_tweet ≠ url_tweet.
Proof.
  assert (Hne : url_tweet ≠ "") by discriminate.
  split; [exact eq_refl|]. split; [exact Hne|]. split.
  - exact (proj1 (fetch_context_stores_rewritten_url ascii_word quote_plain
                    parse_nothing interpret_nothing dumps_nothing config_both
                    env_ok [("url", url_tweet)] world_empty url_tweet resp_200
                    eq_refl Hne eq_refl eq_refl eq_refl eq_refl)).
  - vm_compute. discriminate.
Defined.

(** ** [to_html] *)

Lemma string_app_assoc a b c : (a +:+ b) +:+ c = a +:+ (b +:+ c).
Proof.
  induction a as [|x a IH]; [reflexivity|].
  change (String x ((a +:+ b) +:+ c) = String x (a +:+ (b +:+ c))).
  by f_equal.
Qed.

Lemma string_app_nil_r a : a +:+ "" = a.
Proof.
  induction a as [|x a IH]; [reflexivity|].
  change (String x (a +:+ "") = String x a). by f_equal.
Qed.

Lemma starts_with_app a b t : starts_with a t → starts_with (a +:+ b) t.
Proof. intros [post ->]. exists (post +:+ b). apply string_app_assoc. Qed.

Lemma starts_with_refl t : starts_with t t.
Proof. exists "". by rewrite string_app_nil_r. Qed.

Lemma ends_with_app a b t : ends_with b t → ends_with (a +:+ b) t.
Proof. intros [pre ->]. exists (a +:+ pre). by rewrite string_app_assoc. Qed.

Lemma ends_with_refl t : ends_with t t.
Proof. by exists "". Qed.

Lemma contains_refl t : contains t t.
Proof. exists "", "". simpl. by rewrite string_app_nil_r. Qed.

Lemma contains_app_l a b t : contains a t → contains (a +:+ b) t.
Proof.
  intros (pre & post & ->). exists pre, (post +:+ b).
  by rewrite !string_app_assoc.
Qed.

Lemma contains_app_r a b t : contains b t → contains (a +:+ b) t.
Proof.
  intros (pre & post & ->). exists (a +:+ pre), post.
  by rewrite !string_app_assoc.
Qed.

Ltac find_inside :=
  solve [ apply contains_refl
        | apply contains_app_r; find_inside
        | apply contains_app_l; find_inside ].

Section ToHtmlProperties.

Variable parse_dt : string → option (string * string).

(** X19 (the wrapper). [to_html] gives None exactly for a dict without
    keys; otherwise it gives a string that starts with the opening tag of
    the [h-cite] div and ends with [</div>]. *)
Theorem to_html_wrapper entry :
  (to_html parse_dt entry = None ↔ mf2entry_bool entry = false)
  ∧ (∀ html, to_html parse_dt entry = Some html →
       starts_with html ("<div class=" +:+ quoted "h-cite" +:+ ">")
       ∧ ends_with html "</div>").
Proof.
  unfold to_html. destruct (mf2entry_bool entry); cbv iota beta zeta;
    [|by split].
  split; [by repeat case_match|].
  intros html Hhtml. repeat case_match; simplify_eq; split;
    first [ apply ends_with_app, ends_with_refl
          | repeat first [apply starts_with_refl | apply starts_with_app] ].
Qed.

(** X20 (nothing is escaped). The content of the entry, and its name,
    reach the output character for character, the content inside the
    [e-content] div, which carries the class [p-name] as well exactly when
    the entry has no name. *)
Theorem to_html_embeds_verbatim entry :
  (∀ v, e_content entry = Some v →
     ∃ html, to_html parse_dt entry = Some html
       ∧ contains html
           ("<div class="
            +:+ quoted ((if present (e_name entry) then "" else "p-name ")
                        +:+ "e-content")
            +:+ ">" +:+ v +:+ "</div>"))
  ∧ (∀ v, e_name entry = Some v →
       ∃ html, to_html parse_dt entry = Some html
         ∧ contains html
             ("<h1 class=" +:+ quoted "p-name" +:+ ">" +:+ v +:+ "</h1>")).
Proof.
  split; intros v Hv; unfold to_html, mf2entry_bool; rewrite Hv;
    unfold present at 1 2 3 4 5; rewrite ?orb_true_r, ?orb_true_l;
    cbv iota beta zeta.
  - repeat case_match; simplify_eq; (eexists; split; [reflexivity|]);
      find_inside.
  - repeat case_match; simplify_eq; (eexists; split; [reflexivity|]);
      find_inside.
Qed.

(** X21 (the permalink block). The output ends with the permalink text,
    the closing [</a>] when the entry has a URL (and only then), and the
    closing [</div>]. The text is [link] when the entry has no publication
    date, and when it has one that cannot be parsed, a [time] element
    carrying the date as it came, both as attribute and as text. *)
Theorem to_html_permalink entry html :
  to_html parse_dt entry = Some html →
  (e_published entry = None →
   ends_with html
     ("link" +:+ (if present (e_url entry) then "</a>" else "")
      +:+ "</div>"))
  ∧ (∀ published,
       e_published entry = Some published → parse_dt published = None →
       ends_with html
         ("<time datetime=" +:+ quoted published +:+ ">" +:+ published
          +:+ "</time>"
          +:+ (if present (e_url entry) then "</a>" else "")
          +:+ "</div>")).
Proof.
  unfold to_html. destruct (mf2entry_bool entry); cbv iota beta zeta;
    [|done].
  intros Hhtml. split.
  - intros Hp. rewrite Hp in Hhtml.
    destruct (e_url entry); unfold present; cbv iota beta zeta in *;
      injection Hhtml as <-; rewrite !string_app_assoc;
      repeat first [apply ends_with_refl | apply ends_with_app].
  - intros published Hp Hd. rewrite Hp, Hd in Hhtml.
    destruct (e_url entry); unfold present; cbv iota beta zeta in *;
      injection Hhtml as <-; rewrite !string_app_assoc;
      repeat first [apply ends_with_refl | apply ends_with_app].
Qed.

End ToHtmlProperties.

Lemma to_html_wrapper_witness :
  to_html parse_dt_fails entry_empty = None
  ∧ starts_with
      ("<div class=" +:+ quoted "h-cite" +:+ "><div class="
       +:+ quoted "p-name e-content" +:+ "><b>hi</b></div>link</div>")
      ("<div class=" +:+ quoted "h-cite" +:+ ">").
Proof.
  destruct (to_html_wrapper parse_dt_fails entry_empty) as [Hnone _].
  destruct (to_html_wrapper parse_dt_fails entry_note) as [_ Hsome].
  split; [exact (proj2 Hnone eq_refl)|].
  exact (proj1 (Hsome _ eq_refl)).
Defined.

Lemma to_html_embeds_verbatim_witness :
  e_content entry_note = Some "<b>hi</b>"
  ∧ ∃ html,
      to_html parse_dt_fails entry_note = Some html
      ∧ contains html
          ("<div class=" +:+ quoted ("p-name " +:+ "e-content") +:+ ">"
           +:+ "<b>hi</b>" +:+ "</div>").
Proof.
  split; [exact eq_refl|].
  exact (proj1 (to_html_embeds_verbatim parse_dt_fails entry_note)
           "<b>hi</b>" eq_refl).
Defined.

Lemma to_html_permalink_witness :
  e_published entry_dated = Some "yesterday"
  ∧ parse_dt_fails "yesterday" = None
  ∧ ∃ html,
      to_html parse_dt_fails entry_dated = Some html
      ∧ ends_with html
          ("<time datetime=" +:+ quoted "yesterday" +:+ ">" +:+ "yesterday"
           +:+ "</time>" +:+ "</a>" +:+ "</div>").
Proof.
  do 2 (split; [exact eq_refl|]).
  eexists. split; [exact eq_refl|].
  exact (proj2 (to_html_permalink parse_dt_fails entry_dated _ eq_refl)
           "yesterday" eq_refl eq_refl).
Defined.
